(** * nnest.likelihoods: benchmark log-densities and their rejection sampler

    A shallow embedding of [nnest/likelihoods.py].

    Conventions of the embedding:
    - a NumPy [float64] (and a Python [float] or [int]) is a real number of
      [R]; rounding, infinities and NaN are outside the model; every array
      is an array of [float64], as the candidates of [sample] are (arrays
      of integers, which NumPy refuses to update in place with a float,
      are outside the model);
    - a Python exception is a value of [exn], and a computation that may
      raise returns a [res];
    - arrays that the code only reads are lists; the one place where the
      code writes into an array ([GaussianMix.__call__]) has a second model
      over an explicit store of array objects;
    - the process-wide generator [np.random] is an explicit [RandomState]
      threaded through [sample]. *)

From Stdlib Require Import Reals Lra Lia String.
From stdpp Require Import gmap.

#[local] Open Scope R_scope.

(** ** Exceptions and the error monad *)

Inductive exn : Type :=
| NotImplementedError
| AssertionError (msg : string)
| IndexError
| TypeError
| ValueError.

Inductive res (A : Type) : Type :=
| Ok (a : A)
| Raise (e : exn).
Arguments Ok {A} a.
Arguments Raise {A} e.

Definition bind {A B : Type} (m : res A) (k : A -> res B) : res B :=
  match m with
  | Ok a => k a
  | Raise e => Raise e
  end.

Notation "'let*' x ':=' m 'in' k" := (bind m (fun x => k))
  (at level 10, x name, m at level 100, k at level 200).

(** A list comprehension [[f(x) for x in xs]] whose body may raise: the
    elements are evaluated from left to right and the first exception
    leaves the comprehension. *)
Fixpoint comprehension {A B : Type} (f : A -> res B) (xs : list A) : res (list B) :=
  match xs with
  | [] => Ok []
  | x :: xs' => let* y := f x in let* ys := comprehension f xs' in Ok (y :: ys)
  end.

(** ** Arrays and the arguments of [loglike] *)

(** The arrays of the module have one or two axes. *)
Inductive ndarray : Type :=
| Arr1 (v : list R)
| Arr2 (ncols : nat) (rows : list (list R)).

Definition shape (a : ndarray) : list nat :=
  match a with
  | Arr1 v => [length v]
  | Arr2 d rows => [length rows; d]
  end.

(** What [loglike] is handed: a Python list of numbers (the empty list
    [[]] is [PyListNum []]), a non-empty Python list of lists of numbers,
    or an array. *)
Inductive pyobj : Type :=
| PyListNum (l : list R)
| PyListList (row : list R) (rows : list (list R))
| PyArray (a : ndarray).


(** [if isinstance(x, list): x = np.array(x)]. Rows of different lengths
    are refused by [np.array] (NumPy 1.24 and later). *)
Definition to_array (x : pyobj) : res ndarray :=
  match x with
  | PyListNum l => Ok (Arr1 l)
  | PyListList r rs =>
      if forallb (fun r' => Nat.eqb (length r') (length r)) rs
      then Ok (Arr2 (length r) (r :: rs))
      else Raise ValueError
  | PyArray a => Ok a
  end.

(** What [loglike] returns: the scalar of one point or an array of
    scalars. *)
Inductive out : Type :=
| Scalar (s : R)
| Vector (v : list R).

(** ** The class [Likelihood] *)

(** A member that is a [@property] runs its getter when it is read; a
    member that is a plain method is a bound method when read and runs
    its body when called. *)
Inductive member (A : Type) : Type :=
| Property (getter : res A)
| Method (body : res A).
Arguments Property {A} getter.
Arguments Method {A} body.

Inductive attr (A : Type) : Type :=
| Value (a : A)
| BoundMethod.
Arguments Value {A} a.
Arguments BoundMethod {A}.

(** [self.m] *)
Definition read {A : Type} (m : member A) : res (attr A) :=
  match m with
  | Property g => let* a := g in Ok (Value a)
  | Method _ => Ok BoundMethod
  end.

(** Invoking the primitive: reading the property, or calling the
    method. *)
Definition invoke {A : Type} (m : member A) : res A :=
  match m with
  | Property g => g
  | Method body => body
  end.

Record Likelihood : Type := {
  x_dim : nat;
  call : list R -> res R;                      (* __call__ *)
  max_loglike : member R;
  sample_range : member (list R * list R)
}.

(** The base class: its three primitives raise. *)
Definition Base (x_dim : nat) : Likelihood := {|
  x_dim := x_dim;
  call := fun _ => Raise NotImplementedError;
  max_loglike := Method (Raise NotImplementedError);
  sample_range := Method (Raise NotImplementedError)
|}.

(** [Likelihood.loglike]: an array of two axes ([len(x.shape) > 1], see
    [shape]) is evaluated row by row, an array of one axis is handed to
    [__call__] whole. *)
Definition loglike (L : Likelihood) (x : pyobj) : res out :=
  let* a := to_array x in
  match a with
  | Arr2 _ rows => let* v := comprehension (call L) rows in Ok (Vector v)
  | Arr1 v => let* s := call L v in Ok (Scalar s)
  end.

(** ** NumPy and SciPy functions the module calls *)

(** Python's [sum] and [np.sum] of a 1-D array: the elements are added to
    [0] from left to right. *)
Definition sum (l : list R) : R := fold_left Rplus l 0.

(** [x[i]] on a list or 1-D array, for an index [i >= 0]. *)
Definition getitem (x : list R) (i : nat) : res R :=
  match x !! i with
  | Some v => Ok v
  | None => Raise IndexError
  end.

(** [np.isclose(a, b)] with its default tolerances [rtol=1e-05] and
    [atol=1e-08]: [absolute(a - b) <= atol + rtol * absolute(b)]. *)
Definition rtol : R := 1 / 100000.
Definition atol : R := 1 / 100000000.

Definition isclose (a b : R) : bool :=
  if Rle_dec (Rabs (a - b)) (atol + rtol * Rabs b) then true else false.

(** [np.argmax] of a non-empty list: the first index of the greatest
    element. [argmax_from i best v l] has seen the greatest element [v] at
    index [best] and continues with [l], whose head has index [i]. *)
Fixpoint argmax_from (i best : nat) (v : R) (l : list R) : nat :=
  match l with
  | [] => best
  | w :: l' =>
      if Rlt_dec v w then argmax_from (S i) i w l'
      else argmax_from (S i) best v l'
  end.

Definition argmax (l : list R) : res nat :=
  match l with
  | [] => Raise ValueError
  | v :: l' => Ok (argmax_from 1 0 v l')
  end.

(** [scipy.special.logsumexp]: the logarithm of the sum of the
    exponentials. *)
Definition logsumexp (l : list R) : R := ln (sum (map exp l)).

(** ** Rosenbrock *)

Definition Rosenbrock_call (x : list R) : res R :=
  Ok (- sum (zip_with (fun a b => 100 * (a - b ^ 2) ^ 2 + (1 - b) ^ 2)
                      (tail x) (removelast x))).

Definition Rosenbrock (x_dim : nat) : Likelihood := {|
  x_dim := x_dim;
  call := Rosenbrock_call;
  max_loglike := Property (Rosenbrock_call (replicate x_dim 1));
  sample_range := Property (Ok (replicate x_dim (-2), replicate x_dim 12))
|}.

(** ** Himmelblau *)

Definition Himmelblau_call (x : list R) : res R :=
  let* x0 := getitem x 0 in
  let* x1 := getitem x 1 in
  Ok (- (x0 ^ 2 + x1 - 11) ^ 2 - (x0 + x1 ^ 2 - 7) ^ 2).

Definition Himmelblau : Likelihood := {|
  x_dim := 2;
  call := Himmelblau_call;
  max_loglike := Property (Himmelblau_call [3; 2]);
  sample_range := Property (Ok (replicate 2 (-5), replicate 2 5))
|}.

(** ** Gaussian *)

(** [np.eye(d) + corr * (1 - np.eye(d))] *)
Definition eye (i j : nat) : R := if Nat.eqb i j then 1 else 0.

Definition Gaussian_cov (d : nat) (corr : R) : list (list R) :=
  map (fun i => map (fun j => eye i j + corr * (1 - eye i j)) (seq 0 d)) (seq 0 d).

Section Gaussian.
(** [scipy.stats.multivariate_normal.logpdf(x, mean, cov)] is SciPy's;
    the module only calls it. *)
Variable multivariate_normal_logpdf : list R -> list R -> list (list R) -> res R.

Definition Gaussian_call (x_dim : nat) (corr : R) (x : list R) : res R :=
  multivariate_normal_logpdf x (replicate x_dim 0) (Gaussian_cov x_dim corr).

Definition Gaussian (x_dim : nat) (corr : R) : Likelihood := {|
  x_dim := x_dim;
  call := Gaussian_call x_dim corr;
  max_loglike := Property (Gaussian_call x_dim corr (replicate x_dim 0));
  sample_range := Property (Ok (replicate x_dim (-5), replicate x_dim 5))
|}.
End Gaussian.

(** ** Eggbox *)

Definition Eggbox_call (x : list R) : res R :=
  let* x0 := getitem x 0 in
  let* x1 := getitem x 1 in
  let chi := cos (x0 / 2) * cos (x1 / 2) in
  Ok ((2 + chi) ^ 5).

Definition Eggbox : Likelihood := {|
  x_dim := 2;
  call := Eggbox_call;
  max_loglike := Property (Eggbox_call (replicate 2 0));
  sample_range := Property (Ok (replicate 2 (-15), replicate 2 15))
|}.

(** ** GaussianShell *)

Definition GaussianShell_call (sigma rshell : R) (x : list R) : res R :=
  let rad := sqrt (sum (map (fun t => t ^ 2) x)) in
  Ok (- ((rad - rshell) ^ 2) / (2 * sigma ^ 2)).

Definition GaussianShell (x_dim : nat) (sigma rshell : R) : Likelihood := {|
  x_dim := x_dim;
  call := GaussianShell_call sigma rshell;
  max_loglike :=
    Property (GaussianShell_call sigma rshell (rshell :: replicate (x_dim - 1) 0));
  sample_range :=
    Property (Ok (replicate x_dim (- rshell - 5 * sigma),
                  replicate x_dim (rshell + 5 * sigma)))
|}.

(** ** log_gaussian_pdf *)

(** The [theta] that [log_gaussian_pdf] is given: a Python number, a 1-D
    array, or an array without axes (which has no [len] and is not a
    Python number). *)
Inductive theta_arg : Type :=
| ThetaNum (t : R)
| ThetaArr (v : list R)
| ThetaArr0 (t : R).

Definition elements (theta : theta_arg) : list R :=
  match theta with
  | ThetaNum t => [t]
  | ThetaArr v => v
  | ThetaArr0 t => [t]
  end.

Definition log_gaussian_pdf (theta : theta_arg) (sigma mu : R) (ndim : option nat)
  : res R :=
  let* ndim :=
    match ndim with
    | Some n => Ok n
    | None =>
        match theta with
        | ThetaArr v => Ok (length v)
        | ThetaNum _ => Ok 1%nat
        | ThetaArr0 _ => Raise (AssertionError "theta")
        end
    end in
  let logl := - (sum (map (fun t => (t - mu) ^ 2) (elements theta)) / (2 * sigma ^ 2)) in
  Ok (logl - ln (2 * PI * sigma ^ 2) * INR ndim / 2).

(** ** GaussianMix *)

Record GaussianMix_obj : Type := {
  gm_x_dim : nat;
  gm_sep : R;
  gm_weights : list R;
  gm_sigma : R;
  gm_sigmas : list R;
  gm_positions : list (list R)
}.

(** The messages of the two assertions of [GaussianMix.__init__]; both
    end in [str(weights)], which is left out. *)
Definition msg_components : string := "Weights must have 2, 3 or 4 components. Weights=".
Definition msg_sum : string := "Weights must sum to 1! Weights=".

(** [GaussianMix.__init__] *)
Definition GaussianMix_init (x_dim : nat) (sep : R) (weights : list R) (sigma : R)
  : res GaussianMix_obj :=
  if negb (bool_decide (length weights ∈ [2; 3; 4]%nat)) then
    Raise (AssertionError msg_components)
  else if negb (isclose (sum weights) 1) then
    Raise (AssertionError msg_sum)
  else
    Ok {| gm_x_dim := x_dim;
          gm_sep := sep;
          gm_weights := weights;
          gm_sigma := sigma;
          gm_sigmas := replicate (length weights) sigma;
          gm_positions :=
            take (length weights) [[0; sep]; [0; - sep]; [sep; 0]; [- sep; 0]] |}.

Definition default_sep : R := 4.
Definition default_weights : list R := [4 / 10; 3 / 10; 2 / 10; 1 / 10].
Definition default_sigma : R := 1.

(** [thetas[-1][:2] -= pos] on the copy [theta], an array of [float64]:
    [pos] is subtracted from the slice element by element when both have
    the same length, a [pos] of one element is broadcast, and any other
    [pos] is refused. *)
Definition isub_slice2 (theta pos : list R) : res (list R) :=
  if Nat.eqb (length (take 2 theta)) (length pos)
  then Ok (zip_with Rminus (take 2 theta) pos ++ drop 2 theta)
  else match pos with
       | [p] => Ok (map (fun t => t - p) (take 2 theta) ++ drop 2 theta)
       | _ => Raise ValueError
       end.

(** [log_gaussian_pdf(thetas[i], sigma=self.sigmas[i])
    + np.log(self.weights[i])], for a positive weight (the logarithm of
    a weight that is not positive is outside the real numbers). *)
Definition gm_logl (g : GaussianMix_obj) (thetas : list (list R)) (i : nat) : res R :=
  match thetas !! i, gm_sigmas g !! i, gm_weights g !! i with
  | Some th, Some s, Some w =>
      let* l := log_gaussian_pdf (ThetaArr th) s 0 None in Ok (l + ln w)
  | _, _, _ => Raise IndexError
  end.

Definition GaussianMix_call (g : GaussianMix_obj) (theta : list R) : res R :=
  let* thetas := comprehension (isub_slice2 theta) (gm_positions g) in
  let* logls := comprehension (gm_logl g thetas) (seq 0 (length (gm_weights g))) in
  Ok (logsumexp logls).

Definition GaussianMix_max_loglike (g : GaussianMix_obj) : res R :=
  let* k := argmax (gm_weights g) in
  match gm_positions g !! k with
  | Some pos => GaussianMix_call g pos
  | None => Raise IndexError
  end.

Definition GaussianMix (g : GaussianMix_obj) : Likelihood := {|
  x_dim := gm_x_dim g;
  call := GaussianMix_call g;
  max_loglike := Property (GaussianMix_max_loglike g);
  sample_range :=
    Property (Ok (replicate (gm_x_dim g) (- gm_sep g - 5 * gm_sigma g),
                  replicate (gm_x_dim g) (gm_sep g + 5 * gm_sigma g)))
|}.

(** ** GaussianMix.__call__ over a store of array objects

    [copy.deepcopy(theta)] makes a new array object and
    [thetas[-1][:2] -= pos] writes into it; here arrays live in a store
    and are named by their address, so that the write is visible. *)

Definition loc : Type := nat.
Abbreviation store := (gmap loc (list R)).

(** A computation on the store that may raise; the store survives the
    exception. *)
Definition M (A : Type) : Type := store -> res A * store.

Definition ret {A : Type} (a : A) : M A := fun h => (Ok a, h).

Definition throw {A : Type} (e : exn) : M A := fun h => (Raise e, h).

Definition bindM {A B : Type} (m : M A) (k : A -> M B) : M B :=
  fun h =>
    match m h with
    | (Ok a, h') => k a h'
    | (Raise e, h') => (Raise e, h')
    end.

Notation "'do*' x ':=' m 'in' k" := (bindM m (fun x => k))
  (at level 10, x name, m at level 100, k at level 200).

Definition lift {A : Type} (r : res A) : M A := fun h => (r, h).

(** Reading the array at [l] (an address outside the store does not
    arise in a run). *)
Definition load (l : loc) : M (list R) :=
  fun h =>
    match h !! l with
    | Some v => (Ok v, h)
    | None => (Raise ValueError, h)
    end.

Definition store_at (l : loc) (v : list R) : M unit :=
  fun h => (Ok tt, <[l := v]> h).

(** [copy.deepcopy(theta)]: a new object with the contents of [theta]. *)
Definition deepcopy (theta : loc) : M loc :=
  do* v := load theta in
  fun h => let c := fresh (dom h) in (Ok c, <[c := v]> h).

(** [a[:2] -= pos], in place on the object at [a]. *)
Definition isub_slice2_at (a : loc) (pos : list R) : M unit :=
  do* v := load a in
  do* v' := lift (isub_slice2 v pos) in
  store_at a v'.

(** The loop over [self.positions]; [thetas] is the list built so far. *)
Fixpoint copy_loop (theta : loc) (positions : list (list R)) (thetas : list loc)
  : M (list loc) :=
  match positions with
  | [] => ret thetas
  | pos :: rest =>
      do* c := deepcopy theta in
      let thetas := thetas ++ [c] in
      do* _ := match last thetas with
               | Some a => isub_slice2_at a pos
               | None => throw IndexError
               end in
      copy_loop theta rest thetas
  end.

Definition gm_logl_at (g : GaussianMix_obj) (thetas : list loc) (i : nat) : M R :=
  match thetas !! i, gm_sigmas g !! i, gm_weights g !! i with
  | Some a, Some s, Some w =>
      do* th := load a in
      do* l := lift (log_gaussian_pdf (ThetaArr th) s 0 None) in
      ret (l + ln w)
  | _, _, _ => throw IndexError
  end.

Fixpoint comprehension_at {A B : Type} (f : A -> M B) (xs : list A) : M (list B) :=
  match xs with
  | [] => ret []
  | x :: xs' =>
      do* y := f x in
      do* ys := comprehension_at f xs' in
      ret (y :: ys)
  end.

Definition GaussianMix_call_at (g : GaussianMix_obj) (theta : loc) : M R :=
  do* thetas := copy_loop theta (gm_positions g) [] in
  do* logls := comprehension_at (gm_logl_at g thetas) (seq 0 (length (gm_weights g))) in
  ret (logsumexp logls).

(** ** The generator of [np.random] *)

(** The state of the generator: the variates in [0, 1) that it will
    hand out, and how many it has handed out. *)
Record RandomState : Type := {
  stream : nat -> R;
  pos : nat
}.

Definition advance (k : nat) (st : RandomState) : RandomState :=
  {| stream := stream st; pos := (pos st + k)%nat |}.

(** [random_sample()] *)
Definition random_sample (st : RandomState) : R * RandomState :=
  (stream st (pos st), advance 1 st).

(** One cell of [np.random.uniform(low, high)]:
    [low + (high - low) * random_sample()]. *)
Definition uniform_cell (low high : R) (st : RandomState) : R * RandomState :=
  let (u, st') := random_sample st in (low + (high - low) * u, st').

(** The cells of one row, filled from left to right. *)
Fixpoint uniform_row (low high : list R) (st : RandomState) : list R * RandomState :=
  match low, high with
  | l :: low', h :: high' =>
      let (x, st1) := uniform_cell l h st in
      let (xs, st2) := uniform_row low' high' st1 in
      (x :: xs, st2)
  | _, _ => ([], st)
  end.

Fixpoint uniform_rows (n : nat) (low high : list R) (st : RandomState)
  : list (list R) * RandomState :=
  match n with
  | O => ([], st)
  | S n' =>
      let (row, st1) := uniform_row low high st in
      let (rows, st2) := uniform_rows n' low high st1 in
      (row :: rows, st2)
  end.

(** A bound given as a list is broadcast along the last axis of length
    [d]. *)
Definition broadcast_to (d : nat) (l : list R) : res (list R) :=
  if Nat.eqb (length l) d then Ok l
  else match l with
       | [b] => Ok (replicate d b)
       | _ => Raise ValueError
       end.

(** [np.random.uniform(low=low, high=high, size=(n, d))] *)
Definition uniform_matrix (low high : list R) (n d : nat) (st : RandomState)
  : res (list (list R)) * RandomState :=
  match broadcast_to d low, broadcast_to d high with
  | Ok lo, Ok hi => let (x, st') := uniform_rows n lo hi st in (Ok x, st')
  | Raise e, _ => (Raise e, st)
  | _, Raise e => (Raise e, st)
  end.

(** [np.random.uniform(low=low, high=high, size=(n,))] *)
Definition uniform_vector (low high : R) (n : nat) (st : RandomState)
  : list R * RandomState :=
  uniform_row (replicate n low) (replicate n high) st.

(** ** Likelihood.sample *)

(** How a run of [sample] ends; [OutOfFuel] is a run of the model that
    was cut off, not an outcome of the program. *)
Inductive outcome (A : Type) : Type :=
| Done (a : A)
| Fail (e : exn)
| OutOfFuel.
Arguments Done {A} a.
Arguments Fail {A} e.
Arguments OutOfFuel {A}.

Definition batch : nat := 1000.

(** [np.exp(loglike - max_loglike)]; a scalar [loglike] is broadcast
    against the [n] draws it is compared with. *)
Definition ratio_of (n : nat) (ll : out) (m : attr R) : res (list R) :=
  match m with
  | BoundMethod => Raise TypeError
  | Value m =>
      match ll with
      | Vector v => Ok (map (fun l => exp (l - m)) v)
      | Scalar s => Ok (replicate n (exp (s - m)))
      end
  end.

(** [x[np.where(ratio > r)]]: the rows of [x] whose ratio exceeds their
    draw, in the order of [x]. *)
Fixpoint select (x : list (list R)) (ratio r : list R) : list (list R) :=
  match x, ratio, r with
  | row :: x', q :: ratio', u :: r' =>
      if Rgt_dec q u then row :: select x' ratio' r' else select x' ratio' r'
  | _, _, _ => []
  end.

(** The [while] loop of [sample], run for at most [fuel] iterations. *)
Fixpoint sample_loop (fuel : nat) (L : Likelihood) (max_loglike : attr R)
    (low high : list R) (num_samples : nat) (st : RandomState)
    (samples : list (list R)) : outcome (list (list R)) * RandomState :=
  if (length samples <? num_samples)%nat then
    match fuel with
    | O => (OutOfFuel, st)
    | S fuel' =>
        match uniform_matrix low high batch (x_dim L) st with
        | (Raise e, st1) => (Fail e, st1)
        | (Ok x, st1) =>
            match (let* ll := loglike L (PyArray (Arr2 (x_dim L) x)) in
                   ratio_of batch ll max_loglike) with
            | Raise e => (Fail e, st1)
            | Ok ratio =>
                let (r, st2) := uniform_vector 0 1 batch st1 in
                sample_loop fuel' L max_loglike low high num_samples st2
                  (select x ratio r ++ samples)
            end
        end
    end
  else (Done (take num_samples samples), st).

Definition sample (fuel : nat) (L : Likelihood) (num_samples : nat) (st : RandomState)
  : outcome (list (list R)) * RandomState :=
  match read (max_loglike L) with
  | Raise e => (Fail e, st)
  | Ok m =>
      match read (sample_range L) with
      | Raise e => (Fail e, st)
      | Ok BoundMethod => (Fail TypeError, st)
      | Ok (Value (low, high)) => sample_loop fuel L m low high num_samples st []
      end
  end.

(** * Notions used in the statements *)

Definition len_ok (n : nat) : Prop := n = 2%nat \/ n = 3%nat \/ n = 4%nat.

(** The arrays at the addresses [thetas] hold the values [ths]. *)
Definition holds (h : store) (thetas : list loc) (ths : list (list R)) : Prop :=
  Forall2 (fun a th => h !! a = Some th) thetas ths.

Definition two_equal_components : GaussianMix_obj := {|
  gm_x_dim := 2;
  gm_sep := 1 / 2;
  gm_weights := [1 / 2; 1 / 2];
  gm_sigma := 1;
  gm_sigmas := [1; 1];
  gm_positions := [[0; 1 / 2]; [0; - (1 / 2)]]
|}.

(** Every variate of the generator lies in [0, 1). *)
Definition valid (st : RandomState) : Prop := forall i, 0 <= stream st i < 1.

(** [row] lies componentwise between [lo] and [hi]. *)
Definition in_box (lo hi row : list R) : Prop :=
  Forall2 Rle lo row /\ Forall2 Rle row hi.

(** Candidate number [i] of an iteration that starts in state [st]: its
    coordinate [j] is drawn uniformly between [lo_j] and [hi_j], with a
    variate of its own. *)
Definition row_at (lo hi : list R) (s : nat -> R) (p : nat) : list R :=
  imap (fun j b => b.1 + (b.2 - b.1) * s (p + j)%nat) (zip lo hi).

Definition candidates_n (k : nat) (lo hi : list R) (st : RandomState) : list (list R) :=
  map (fun i => row_at lo hi (stream st) (pos st + i * length lo)) (seq 0 k).

Definition spec_candidates (lo hi : list R) (st : RandomState) : list (list R) :=
  candidates_n 1000 lo hi st.

(** One uniform number of [0, 1) per candidate, drawn after the
    candidates. *)
Definition draws_n (k d : nat) (st : RandomState) : list R :=
  map (fun i => stream st (pos st + k * d + i)) (seq 0 k).

Definition spec_draws (d : nat) (st : RandomState) : list R := draws_n 1000 d st.

(** A candidate is accepted iff its ratio [exp(loglike - max_loglike)]
    exceeds its draw. *)
Inductive spec_accept (m : R) :
  list (list R) -> list R -> list R -> list (list R) -> Prop :=
| spec_accept_nil : spec_accept m [] [] [] []
| spec_accept_yes c cs ll lls u us acc :
    exp (ll - m) > u -> spec_accept m cs lls us acc ->
    spec_accept m (c :: cs) (ll :: lls) (u :: us) (c :: acc)
| spec_accept_no c cs ll lls u us acc :
    ~ exp (ll - m) > u -> spec_accept m cs lls us acc ->
    spec_accept m (c :: cs) (ll :: lls) (u :: us) acc.

(** Iterations accumulate accepted candidates until there are at least
    [n] of them. *)
Inductive spec_sample_loop (L : Likelihood) (m : R) (lo hi : list R) (n : nat) :
  RandomState -> list (list R) -> RandomState -> list (list R) -> Prop :=
| spec_stop st acc :
    (n <= length acc)%nat -> spec_sample_loop L m lo hi n st acc st acc
| spec_step st acc lls accepted st' acc' :
    (length acc < n)%nat ->
    Forall2 (fun c ll => call L c = Ok ll) (spec_candidates lo hi st) lls ->
    spec_accept m (spec_candidates lo hi st) lls (spec_draws (length lo) st) accepted ->
    spec_sample_loop L m lo hi n (advance (1000 * length lo + 1000) st)
      (accepted ++ acc) st' acc' ->
    spec_sample_loop L m lo hi n st acc st' acc'.

(** A generator whose variates are all 0: every candidate is the lower
    corner of the box and every draw is 0, so every candidate is
    accepted. *)
Definition zero_state : RandomState := {| stream := fun _ => 0; pos := 0 |}.

Definition lower_corner : list R := [-5 + (5 - -5) * 0; -5 + (5 - -5) * 0].

(** The density of the isotropic normal distribution of two dimensions
    with standard deviation [sigma], at distance [(x, y)] from its
    centre. *)
Definition normal_density2 (sigma x y : R) : R :=
  exp (- ((x ^ 2 + y ^ 2) / (2 * sigma ^ 2))) / (2 * PI * sigma ^ 2).

(** The mixture of [two_equal_components], declared for vectors of one
    coordinate. *)
Definition one_dimensional_mixture : GaussianMix_obj := {|
  gm_x_dim := 1;
  gm_sep := 1 / 2;
  gm_weights := [1 / 2; 1 / 2];
  gm_sigma := 1;
  gm_sigmas := [1; 1];
  gm_positions := [[0; 1 / 2]; [0; - (1 / 2)]]
|}.







(** The six classes that derive from [Likelihood]. *)
Inductive concrete : Likelihood -> Prop :=
| concrete_Rosenbrock d : concrete (Rosenbrock d)
| concrete_Himmelblau : concrete Himmelblau
| concrete_Gaussian logpdf d corr : concrete (Gaussian logpdf d corr)
| concrete_Eggbox : concrete Eggbox
| concrete_GaussianShell d sigma rshell : concrete (GaussianShell d sigma rshell)
| concrete_GaussianMix g : concrete (GaussianMix g).

(** * Properties *)

(** ** The error monad and comprehensions *)

Lemma comprehension_Ok {A B : Type} (f : A -> res B) (xs : list A) (ys : list B) :
  comprehension f xs = Ok ys <-> Forall2 (fun x y => f x = Ok y) xs ys.
Proof.
  revert ys. induction xs as [|x xs IH]; intros ys; simpl.
  - split.
    + intros [= <-]. constructor.
    + intros H. inversion H. reflexivity.
  - split.
    + destruct (f x) as [y|e] eqn:Hx; simpl; [|discriminate].
      destruct (comprehension f xs) as [ys'|e] eqn:Hxs; simpl; [|discriminate].
      intros [= <-]. constructor; [assumption|]. apply IH. reflexivity.
    + intros H. inversion H as [|? y ? ys' Hx Hxs]; subst.
      rewrite Hx. simpl. apply IH in Hxs. rewrite Hxs. reflexivity.
Qed.

Lemma comprehension_length {A B : Type} (f : A -> res B) (xs : list A) (ys : list B) :
  comprehension f xs = Ok ys -> length ys = length xs.
Proof.
  intros H. apply comprehension_Ok in H. symmetry. eapply Forall2_length, H.
Qed.

Lemma comprehension_total {A B : Type} (f : A -> res B) (g : A -> B) (xs : list A) :
  (forall x, f x = Ok (g x)) -> comprehension f xs = Ok (map g xs).
Proof.
  intros Hf. induction xs as [|x xs IH]; simpl; [reflexivity|].
  rewrite Hf, IH. reflexivity.
Qed.

(** ** loglike *)

Lemma shape_two_axes (a : ndarray) :
  (1 <? length (shape a))%nat = match a with Arr2 _ _ => true | Arr1 _ => false end.
Proof. destruct a; reflexivity. Qed.



Lemma Himmelblau_call_3_2 : Himmelblau_call [3; 2] = Ok 0.
Proof. unfold Himmelblau_call. simpl. f_equal. lra. Qed.



(** ** The base class *)

(** C7, as amended. On the base class [evaluate], [max_loglike] and
    [sample_range] raise [NotImplementedError] when invoked, and so does
    [loglike] on every 1-D point and on every batch with at least one
    row; on a 2-D array without rows [loglike] returns the empty array
    (and a list that [np.array] refuses raises the error of
    [np.array]). *)
Theorem Base_primitives_raise (d : nat) :
  (forall x, call (Base d) x = Raise NotImplementedError)
  /\ invoke (max_loglike (Base d)) = Raise NotImplementedError
  /\ invoke (sample_range (Base d)) = Raise NotImplementedError
  /\ (forall x,
        loglike (Base d) x =
        match to_array x with
        | Ok (Arr2 _ []) => Ok (Vector [])
        | Ok _ => Raise NotImplementedError
        | Raise e => Raise e
        end).
Proof.
  repeat split.
  intros x. unfold loglike. destruct (to_array x) as [[v|c [|r rows]]|e]; reflexivity.
Qed.

(** C7, as stated, fails for [loglike] on a batch without rows. *)
Lemma Base_loglike_empty_counterexample :
  loglike (Base 2) (PyArray (Arr2 2 [])) = Ok (Vector [])
  /\ loglike (Base 2) (PyArray (Arr2 2 [])) <> Raise NotImplementedError.
Proof. split; [reflexivity|discriminate]. Qed.

(** ** Sums *)

Lemma sum_from (l : list R) (a : R) : fold_left Rplus l a = a + sum l.
Proof.
  unfold sum. revert a. induction l as [|x l IH]; intros a; simpl.
  - lra.
  - rewrite (IH (a + x)), (IH (0 + x)). lra.
Qed.

Lemma sum_cons (x : R) (l : list R) : sum (x :: l) = x + sum l.
Proof. unfold sum at 1. simpl. rewrite sum_from. lra. Qed.

Lemma sum_nil : sum [] = 0.
Proof. reflexivity. Qed.

Lemma sum_replicate_0 (n : nat) : sum (replicate n 0) = 0.
Proof.
  induction n as [|n IH]; simpl; [reflexivity|]. rewrite sum_cons, IH. lra.
Qed.

Lemma sum_nonneg (l : list R) : Forall (fun x => 0 <= x) l -> 0 <= sum l.
Proof.
  induction 1 as [|x l Hx _ IH]; [rewrite sum_nil; lra|].
  rewrite sum_cons. lra.
Qed.

(** ** The declared maximizers *)

Lemma tail_replicate {A : Type} (n : nat) (a : A) :
  tail (replicate n a) = replicate (n - 1) a.
Proof. destruct n; simpl; [reflexivity|]. rewrite Nat.sub_0_r. reflexivity. Qed.

Lemma removelast_replicate {A : Type} (n : nat) (a : A) :
  removelast (replicate n a) = replicate (n - 1) a.
Proof.
  induction n as [|n IH]; [reflexivity|].
  destruct n as [|n]; [reflexivity|].
  change (replicate (S (S n)) a) with (a :: replicate (S n) a).
  change (removelast (a :: replicate (S n) a)) with (a :: removelast (replicate (S n) a)).
  rewrite IH. simpl. rewrite Nat.sub_0_r. reflexivity.
Qed.

Lemma Rosenbrock_call_ones (d : nat) : Rosenbrock_call (replicate d 1) = Ok 0.
Proof.
  unfold Rosenbrock_call. rewrite tail_replicate, removelast_replicate.
  rewrite zip_with_replicate.
  replace (100 * (1 - 1 ^ 2) ^ 2 + (1 - 1) ^ 2) with 0 by lra.
  rewrite sum_replicate_0. f_equal. lra.
Qed.

Lemma Eggbox_call_0_0 : Eggbox_call [0; 0] = Ok 243.
Proof.
  unfold Eggbox_call. simpl. f_equal.
  replace (0 / 2) with 0 by lra. rewrite cos_0. lra.
Qed.

(** C5. Every variant's [max_loglike] is [evaluate] at its declared
    maximizer: Himmelblau at (3, 2) and Rosenbrock at the all-ones vector
    evaluate to 0, and that is their [max_loglike]; Eggbox evaluates to
    243 at the zero vector; GaussianShell, Gaussian and GaussianMix
    evaluate at (rshell, 0, ..., 0), at the zero vector, and at the
    position of the first greatest weight. *)
Theorem max_loglike_at_maximizer :
  (call Himmelblau [3; 2] = Ok 0 /\ invoke (max_loglike Himmelblau) = Ok 0)
  /\ (forall d, call (Rosenbrock d) (replicate d 1) = Ok 0
                /\ invoke (max_loglike (Rosenbrock d)) = Ok 0)
  /\ (call Eggbox [0; 0] = Ok 243 /\ invoke (max_loglike Eggbox) = Ok 243)
  /\ (forall d sigma rshell,
        invoke (max_loglike (GaussianShell d sigma rshell)) =
        call (GaussianShell d sigma rshell) (rshell :: replicate (d - 1) 0))
  /\ (forall logpdf d corr,
        invoke (max_loglike (Gaussian logpdf d corr)) =
        call (Gaussian logpdf d corr) (replicate d 0))
  /\ (forall g,
        invoke (max_loglike (GaussianMix g)) =
        let* k := argmax (gm_weights g) in
        match gm_positions g !! k with
        | Some pos => call (GaussianMix g) pos
        | None => Raise IndexError
        end).
Proof.
  split; [split; exact Himmelblau_call_3_2|].
  split; [intros d; split; apply Rosenbrock_call_ones|].
  split; [split; exact Eggbox_call_0_0|].
  repeat split.
Qed.

(** ** log_gaussian_pdf *)

Lemma sum_sq_zeros (d : nat) : sum (map (fun t => (t - 0) ^ 2) (replicate d 0)) = 0.
Proof.
  induction d as [|d IH]; [reflexivity|].
  cbn [replicate map]. rewrite sum_cons, IH. lra.
Qed.

(** C8. At the zero vector of dimension [d], with [sigma = 1] and
    [mu = 0], [log_gaussian_pdf] returns [-d/2 * log(2 pi)]; given a
    Python number and no [ndim] it takes [ndim = 1]. *)
Theorem log_gaussian_pdf_zero_and_scalar :
  (forall d : nat,
     log_gaussian_pdf (ThetaArr (replicate d 0)) 1 0 None
     = Ok (- INR d / 2 * ln (2 * PI)))
  /\ (forall t sigma mu,
        log_gaussian_pdf (ThetaNum t) sigma mu None
        = log_gaussian_pdf (ThetaNum t) sigma mu (Some 1%nat)
        /\ log_gaussian_pdf (ThetaNum t) sigma mu None
           = Ok (- ((t - mu) ^ 2 / (2 * sigma ^ 2)) - ln (2 * PI * sigma ^ 2) * 1 / 2)).
Proof.
  split.
  - intros d. unfold log_gaussian_pdf, bind, elements.
    rewrite sum_sq_zeros, length_replicate. f_equal.
    replace (2 * PI * 1 ^ 2) with (2 * PI) by lra. lra.
  - intros t sigma mu. split; [reflexivity|].
    unfold log_gaussian_pdf, bind, elements, map. rewrite sum_cons, sum_nil.
    f_equal. simpl. lra.
Qed.

(** ** Eggbox *)

Lemma Eggbox_chi_bounds (a b : R) : -1 <= cos a * cos b <= 1.
Proof.
  pose proof (COS_bound a) as [Ha1 Ha2]. pose proof (COS_bound b) as [Hb1 Hb2].
  split; nra.
Qed.

(** C10. On every 2-vector Eggbox returns a value between 1 and 243, and
    its [max_loglike] is 243, the value at the zero vector. *)
Theorem Eggbox_range :
  (forall x0 x1, exists v, call Eggbox [x0; x1] = Ok v /\ 1 <= v <= 243)
  /\ invoke (max_loglike Eggbox) = Ok 243
  /\ call Eggbox [0; 0] = Ok 243.
Proof.
  split; [|split; exact Eggbox_call_0_0].
  intros x0 x1. eexists. split; [reflexivity|].
  pose proof (Eggbox_chi_bounds (x0 / 2) (x1 / 2)) as [Hlo Hhi].
  set (t := 2 + cos (x0 / 2) * cos (x1 / 2)).
  assert (Ht : 1 <= t <= 3) by (unfold t; lra).
  split.
  - replace 1 with (1 ^ 5) by lra. apply pow_incr. lra.
  - replace 243 with (3 ^ 5) by lra. apply pow_incr. lra.
Qed.

(** ** GaussianMix.__init__ *)

Lemma isclose_1_spec (a : R) :
  isclose a 1 = true <-> Rabs (a - 1) <= 1 / 100000000 + 1 / 100000.
Proof.
  unfold isclose, atol, rtol. rewrite Rabs_R1, Rmult_1_r.
  destruct (Rle_dec _ _); split; intros H; try reflexivity; try assumption;
    try discriminate; contradiction.
Qed.

Lemma len_ok_decide (n : nat) : bool_decide (n ∈ [2; 3; 4]%nat) = true <-> len_ok n.
Proof.
  rewrite bool_decide_eq_true. unfold len_ok. rewrite !elem_of_cons, elem_of_nil.
  tauto.
Qed.

(** C6, as amended. Construction fails with the first assertion exactly
    when the number of weights is not 2, 3 or 4, fails with the second
    exactly when the number is right and the sum is further from 1 than
    [1e-8 + 1e-5] (the default tolerances of [np.isclose]), and succeeds
    otherwise; it succeeds for (0.5, 0.5) and fails for (0.5, 0.4) and
    for five weights. *)
Theorem GaussianMix_init_validation :
  (forall d sep w sigma,
     (GaussianMix_init d sep w sigma = Raise (AssertionError msg_components)
      <-> ~ len_ok (length w))
     /\ (GaussianMix_init d sep w sigma = Raise (AssertionError msg_sum)
         <-> len_ok (length w) /\ Rabs (sum w - 1) > 1 / 100000000 + 1 / 100000)
     /\ ((exists g, GaussianMix_init d sep w sigma = Ok g /\ gm_weights g = w)
         <-> len_ok (length w) /\ Rabs (sum w - 1) <= 1 / 100000000 + 1 / 100000))
  /\ (exists g, GaussianMix_init 2 4 [1 / 2; 1 / 2] 1 = Ok g)
  /\ GaussianMix_init 2 4 [1 / 2; 4 / 10] 1 = Raise (AssertionError msg_sum)
  /\ GaussianMix_init 2 4 [1 / 5; 1 / 5; 1 / 5; 1 / 5; 1 / 5] 1
     = Raise (AssertionError msg_components).
Proof.
  assert (Hgen : forall d sep w sigma,
     (GaussianMix_init d sep w sigma = Raise (AssertionError msg_components)
      <-> ~ len_ok (length w))
     /\ (GaussianMix_init d sep w sigma = Raise (AssertionError msg_sum)
         <-> len_ok (length w) /\ Rabs (sum w - 1) > 1 / 100000000 + 1 / 100000)
     /\ ((exists g, GaussianMix_init d sep w sigma = Ok g /\ gm_weights g = w)
         <-> len_ok (length w) /\ Rabs (sum w - 1) <= 1 / 100000000 + 1 / 100000)).
  { intros d sep w sigma. unfold GaussianMix_init.
    pose proof (len_ok_decide (length w)) as Hlen.
    pose proof (isclose_1_spec (sum w)) as Hsum.
    destruct (bool_decide _); simpl.
    - assert (Hok : len_ok (length w)) by (apply Hlen; reflexivity).
      destruct (isclose (sum w) 1); simpl.
      + assert (Hs : Rabs (sum w - 1) <= 1 / 100000000 + 1 / 100000)
          by (apply Hsum; reflexivity).
        split; [split; [discriminate|tauto]|].
        split; [split; [discriminate|intros [_ H]; lra]|].
        split; [tauto|]. intros _. eexists. split; reflexivity.
      + assert (Hs : ~ Rabs (sum w - 1) <= 1 / 100000000 + 1 / 100000)
          by (intros H; apply Hsum in H; discriminate).
        split; [split; [discriminate|tauto]|].
        split; [split; [intros _; split; [assumption|lra]|reflexivity]|].
        split; [intros [g [H _]]; discriminate|tauto].
    - assert (Hno : ~ len_ok (length w))
        by (intros H; apply Hlen in H; discriminate).
      split; [split; [tauto|reflexivity]|].
      split; [split; [discriminate|tauto]|].
      split; [intros [g [H _]]; discriminate|tauto]. }
  split; [exact Hgen|].
  split; [|split].
  - destruct (Hgen 2%nat 4 [1 / 2; 1 / 2] 1) as (_ & _ & [_ H]).
    destruct H as [g [Hg _]]; [|exists g; exact Hg].
    split; [unfold len_ok; simpl; lia|].
    rewrite !sum_cons, sum_nil.
    replace (1 / 2 + (1 / 2 + 0) - 1) with 0 by lra. rewrite Rabs_R0. lra.
  - apply (Hgen 2%nat 4 [1 / 2; 4 / 10] 1).
    split; [unfold len_ok; simpl; lia|].
    rewrite !sum_cons, sum_nil.
    replace (1 / 2 + (4 / 10 + 0) - 1) with (- (1 / 10)) by lra.
    rewrite Rabs_Ropp, Rabs_pos_eq; lra.
  - apply (Hgen 2%nat 4 [1 / 5; 1 / 5; 1 / 5; 1 / 5; 1 / 5] 1).
    unfold len_ok. simpl. lia.
Qed.

Lemma GaussianMix_init_default (d : nat) :
  exists g, GaussianMix_init d default_sep default_weights default_sigma = Ok g.
Proof.
  unfold GaussianMix_init.
  assert (Hlen : bool_decide (length default_weights ∈ [2; 3; 4]%nat) = true)
    by (apply len_ok_decide; unfold len_ok; simpl; lia).
  assert (Hsum : isclose (sum default_weights) 1 = true).
  { apply isclose_1_spec. unfold default_weights. rewrite !sum_cons, sum_nil.
    replace (4 / 10 + (3 / 10 + (2 / 10 + (1 / 10 + 0))) - 1) with 0 by lra.
    rewrite Rabs_R0. lra. }
  rewrite Hlen, Hsum. eexists. reflexivity.
Qed.

(** C6, as stated, fails: a sum that is 5e-6 away from 1 is not within
    1e-8 of 1, and construction succeeds. *)
Lemma GaussianMix_init_tolerance_counterexample :
  Rabs (sum [1 / 2; 1 / 2 + 5 / 1000000] - 1) > 1 / 100000000
  /\ exists g, GaussianMix_init 2 4 [1 / 2; 1 / 2 + 5 / 1000000] 1 = Ok g.
Proof.
  assert (Hs : Rabs (sum [1 / 2; 1 / 2 + 5 / 1000000] - 1) = 5 / 1000000).
  { rewrite !sum_cons, sum_nil.
    replace (1 / 2 + (1 / 2 + 5 / 1000000 + 0) - 1) with (5 / 1000000) by lra.
    apply Rabs_pos_eq. lra. }
  split; [rewrite Hs; lra|].
  unfold GaussianMix_init. simpl.
  assert (Hc : isclose (sum [1 / 2; 1 / 2 + 5 / 1000000]) 1 = true)
    by (apply isclose_1_spec; rewrite Hs; lra).
  rewrite Hc. simpl. eexists. reflexivity.
Qed.

(** ** GaussianMix.__call__ does not write into its argument *)

Lemma deepcopy_spec (theta : loc) (v : list R) (h : store) :
  h !! theta = Some v ->
  deepcopy theta h = (Ok (fresh (dom h)), <[fresh (dom h) := v]> h).
Proof. intros H. unfold deepcopy, bindM, load. rewrite H. reflexivity. Qed.

Lemma isub_slice2_at_spec (a : loc) (v pos : list R) (h : store) :
  h !! a = Some v ->
  isub_slice2_at a pos h =
  match isub_slice2 v pos with
  | Ok v' => (Ok tt, <[a := v']> h)
  | Raise e => (Raise e, h)
  end.
Proof.
  intros H. unfold isub_slice2_at, bindM, load, lift, store_at. rewrite H.
  destruct (isub_slice2 v pos); reflexivity.
Qed.

Lemma fresh_lookup_None (h : store) : h !! fresh (dom h) = None.
Proof. apply not_elem_of_dom, is_fresh. Qed.

Lemma holds_mono (h h' : store) (thetas : list loc) (ths : list (list R)) :
  h ⊆ h' -> holds h thetas ths -> holds h' thetas ths.
Proof.
  intros Hsub H. induction H as [|a th thetas ths Ha _ IH]; constructor.
  - eapply lookup_weaken; eassumption.
  - exact IH.
Qed.

(** The loop only writes into the copies it makes: every object of the
    store [h0] the call started from keeps its value, and the copies hold
    [theta] minus the positions. *)
Lemma copy_loop_spec (h0 : store) (theta : loc) (v : list R) (positions : list (list R)) :
  h0 !! theta = Some v ->
  forall (thetas : list loc) (ths : list (list R)) (h : store),
    h0 ⊆ h -> holds h thetas ths ->
    match copy_loop theta positions thetas h with
    | (Ok thetas', h') =>
        h0 ⊆ h'
        /\ exists ths', comprehension (isub_slice2 v) positions = Ok ths'
                        /\ holds h' thetas' (ths ++ ths')
    | (Raise e, h') =>
        h0 ⊆ h' /\ comprehension (isub_slice2 v) positions = Raise e
    end.
Proof.
  intros Hv. induction positions as [|p rest IH]; intros thetas ths h Hsub Hholds.
  - simpl. split; [exact Hsub|]. exists []. rewrite app_nil_r. split; [reflexivity|assumption].
  - cbn [copy_loop comprehension]. unfold bindM at 1.
    assert (Hth : h !! theta = Some v) by (eapply lookup_weaken; eassumption).
    rewrite (deepcopy_spec theta v h Hth).
    set (c := fresh (dom h)).
    assert (Hc : h !! c = None) by apply fresh_lookup_None.
    unfold bindM at 1. rewrite last_snoc.
    rewrite (isub_slice2_at_spec c v p (<[c := v]> h)) by apply lookup_insert_eq.
    assert (Hsub1 : h ⊆ <[c := v]> h) by (apply insert_subseteq; exact Hc).
    destruct (isub_slice2 v p) as [v'|e] eqn:Hp; cbn [bind].
    + rewrite insert_insert_eq.
      assert (Hsub2 : h ⊆ <[c := v']> h) by (apply insert_subseteq; exact Hc).
      assert (Hholds2 : holds (<[c := v']> h) (thetas ++ [c]) (ths ++ [v'])).
      { apply Forall2_app; [eapply holds_mono; eassumption|].
        constructor; [apply lookup_insert_eq|constructor]. }
      specialize (IH (thetas ++ [c]) (ths ++ [v']) (<[c := v']> h)
                     (transitivity Hsub Hsub2) Hholds2).
      destruct (copy_loop theta rest (thetas ++ [c]) (<[c := v']> h)) as [[thetas'|e] h'].
      * destruct IH as [Hs [ths' [Hcomp Hh]]]. split; [exact Hs|].
        exists (v' :: ths'). rewrite Hcomp. split; [reflexivity|].
        rewrite <- app_assoc in Hh. exact Hh.
      * destruct IH as [Hs Hcomp]. split; [exact Hs|]. rewrite Hcomp. reflexivity.
    + split; [|reflexivity]. etransitivity; eassumption.
Qed.

Lemma gm_logl_at_spec (g : GaussianMix_obj) (h : store) (thetas : list loc)
    (ths : list (list R)) (i : nat) :
  holds h thetas ths -> gm_logl_at g thetas i h = (gm_logl g ths i, h).
Proof.
  intros Hholds. unfold gm_logl_at, gm_logl.
  destruct (thetas !! i) as [a|] eqn:Ha.
  - destruct (Forall2_lookup_l _ _ _ _ _ Hholds Ha) as [th [Hth Hload]].
    rewrite Hth.
    destruct (gm_sigmas g !! i) as [s|]; [|reflexivity].
    destruct (gm_weights g !! i) as [w|]; [|reflexivity].
    unfold bindM, load, lift, ret. rewrite Hload.
    destruct (log_gaussian_pdf (ThetaArr th) s 0 None); reflexivity.
  - assert (Hnone : ths !! i = None).
    { apply lookup_ge_None. rewrite <- (Forall2_length _ _ _ Hholds).
      apply lookup_ge_None. exact Ha. }
    rewrite Hnone. reflexivity.
Qed.

Lemma comprehension_at_pure {A B : Type} (f : A -> M B) (f' : A -> res B)
    (h : store) (xs : list A) :
  (forall x, f x h = (f' x, h)) ->
  comprehension_at f xs h = (comprehension f' xs, h).
Proof.
  intros Hf. induction xs as [|x xs IH]; [reflexivity|].
  cbn [comprehension_at comprehension]. unfold bindM at 1. rewrite Hf.
  destruct (f' x) as [y|e]; [|reflexivity].
  cbn [bind]. unfold bindM. rewrite IH.
  destruct (comprehension f' xs); reflexivity.
Qed.

Lemma GaussianMix_call_at_spec (g : GaussianMix_obj) (theta : loc) (v : list R)
    (h : store) :
  h !! theta = Some v ->
  exists h', GaussianMix_call_at g theta h = (GaussianMix_call g v, h') /\ h ⊆ h'.
Proof.
  intros Hv. unfold GaussianMix_call_at, GaussianMix_call.
  pose proof (copy_loop_spec h theta v (gm_positions g) Hv [] [] h
                (reflexivity h) (List.Forall2_nil _)) as Hloop.
  unfold bindM at 1.
  destruct (copy_loop theta (gm_positions g) [] h) as [[thetas|e] h'].
  - destruct Hloop as [Hsub [ths [Hcomp Hholds]]]. simpl in Hholds.
    exists h'. split; [|exact Hsub].
    rewrite Hcomp. cbn [bind]. unfold bindM.
    rewrite (comprehension_at_pure _ (gm_logl g ths) h')
      by (intros i; apply gm_logl_at_spec; exact Hholds).
    destruct (comprehension (gm_logl g ths) _); reflexivity.
  - destruct Hloop as [Hsub Hcomp]. exists h'. split; [|exact Hsub].
    rewrite Hcomp. reflexivity.
Qed.

(** C9. [GaussianMix.__call__] works on copies: after the call the
    argument (and every other array that existed before the call) holds
    the values it held before, and the result is the result of the
    formula on these values. *)
Theorem GaussianMix_call_keeps_argument (g : GaussianMix_obj) (theta : loc)
    (v : list R) (h : store) :
  h !! theta = Some v ->
  (GaussianMix_call_at g theta h).2 !! theta = Some v
  /\ h ⊆ (GaussianMix_call_at g theta h).2
  /\ (GaussianMix_call_at g theta h).1 = GaussianMix_call g v.
Proof.
  intros Hv. destruct (GaussianMix_call_at_spec g theta v h Hv) as [h' [-> Hsub]].
  cbn [fst snd]. split; [eapply lookup_weaken; eassumption|].
  split; [exact Hsub|reflexivity].
Qed.

Lemma GaussianMix_call_keeps_argument_witness :
  (GaussianMix_call_at two_equal_components 0%nat {[0%nat := [0; 0]]}).2 !! 0%nat
  = Some [0; 0]
  /\ ({[0%nat := [0; 0]]} : store)
     ⊆ (GaussianMix_call_at two_equal_components 0%nat {[0%nat := [0; 0]]}).2
  /\ (GaussianMix_call_at two_equal_components 0%nat {[0%nat := [0; 0]]}).1
     = GaussianMix_call two_equal_components [0; 0].
Proof.
  apply (GaussianMix_call_keeps_argument two_equal_components 0%nat [0; 0]
           {[0%nat := [0; 0]]}).
  apply lookup_singleton_eq.
Defined.

(** ** The generator *)





Lemma broadcast_to_same (d : nat) (l : list R) : length l = d -> broadcast_to d l = Ok l.
Proof. intros H. unfold broadcast_to. rewrite H, Nat.eqb_refl. reflexivity. Qed.

(** ** sample returns [num_samples] rows of the box *)


Section Sampler.
Variable L : Likelihood.
Variable m : attr R.
Variables lo hi : list R.
Variable num_samples : nat.
Hypothesis Hlo : length lo = x_dim L.
Hypothesis Hhi : length hi = x_dim L.
Hypothesis Hbox : Forall2 Rle lo hi.

End Sampler.

(** ** The rejection sampler, as the specification words it *)

Lemma advance_advance (a b : nat) (st : RandomState) :
  advance b (advance a st) = advance (a + b) st.
Proof. unfold advance. cbn [stream pos]. f_equal. lia. Qed.

Lemma advance_0 (st : RandomState) : advance 0 st = st.
Proof. destruct st as [s p]. unfold advance. cbn [stream pos]. f_equal. lia. Qed.

Lemma uniform_row_formula (lo hi : list R) (st : RandomState) :
  uniform_row lo hi st
  = (row_at lo hi (stream st) (pos st), advance (length (zip lo hi)) st).
Proof.
  revert hi st. induction lo as [|l lo IH]; intros [|h hi] st;
    try (cbn [uniform_row zip_with length]; rewrite advance_0; reflexivity).
  cbn [uniform_row]. unfold uniform_cell, random_sample.
  rewrite (IH hi (advance 1 st)), advance_advance.
  unfold row_at. cbn [zip_with length]. rewrite imap_cons.
  cbn [fst snd advance stream pos]. f_equal.
  f_equal; [rewrite Nat.add_0_r; reflexivity|].
  apply imap_ext. intros j b _. cbn. do 3 f_equal. lia.
Qed.

Lemma uniform_rows_formula (k : nat) (lo hi : list R) (st : RandomState) :
  length lo = length hi ->
  uniform_rows k lo hi st = (candidates_n k lo hi st, advance (k * length lo) st).
Proof.
  intros Hlen. revert st. induction k as [|k IH]; intros st.
  - cbn. rewrite advance_0. reflexivity.
  - cbn [uniform_rows]. rewrite uniform_row_formula, length_zip_with_l_eq by exact Hlen.
    rewrite IH, advance_advance. unfold candidates_n.
    cbn [seq map stream pos advance]. rewrite <- seq_shift, map_map.
    f_equal. f_equal; [f_equal; lia|].
    apply map_ext. intros i. f_equal. simpl. lia.
Qed.

Lemma uniform_vector_formula (k : nat) (st : RandomState) :
  uniform_vector 0 1 k st
  = (map (fun i => stream st (pos st + i)) (seq 0 k), advance k st).
Proof.
  unfold uniform_vector. revert st. induction k as [|k IH]; intros st.
  - cbn. rewrite advance_0. reflexivity.
  - cbn [replicate uniform_row]. unfold uniform_cell, random_sample.
    rewrite IH, advance_advance. cbn [seq map stream pos advance].
    rewrite <- seq_shift, map_map. f_equal.
    f_equal; [rewrite Nat.add_0_r; lra|].
    apply map_ext. intros i. f_equal. lia.
Qed.

Lemma length_candidates_n (k : nat) (lo hi : list R) (st : RandomState) :
  length (candidates_n k lo hi st) = k.
Proof. unfold candidates_n. rewrite length_map, length_seq. reflexivity. Qed.

Lemma length_draws_n (k d : nat) (st : RandomState) : length (draws_n k d st) = k.
Proof. unfold draws_n. rewrite length_map, length_seq. reflexivity. Qed.

Lemma spec_accept_select (m : R) (cs : list (list R)) (lls us : list R)
    (acc : list (list R)) :
  spec_accept m cs lls us acc -> acc = select cs (map (fun l => exp (l - m)) lls) us.
Proof.
  induction 1 as [|c cs ll lls u us acc Hgt _ IH|c cs ll lls u us acc Hngt _ IH];
    [reflexivity| |]; cbn [map select]; destruct (Rgt_dec _ _); congruence.
Qed.

Lemma select_spec_accept (m : R) (cs : list (list R)) (lls us : list R) :
  length cs = length lls -> length cs = length us ->
  spec_accept m cs lls us (select cs (map (fun l => exp (l - m)) lls) us).
Proof.
  revert lls us. induction cs as [|c cs IH]; intros [|ll lls] [|u us] H1 H2;
    try discriminate; [constructor|].
  cbn [map select]. injection H1 as H1. injection H2 as H2.
  destruct (Rgt_dec _ _); constructor; auto.
Qed.

Section Refinement.
Variable L : Likelihood.
Variable m : R.
Variables lo hi : list R.
Variable n : nat.
Hypothesis Hlo : length lo = x_dim L.
Hypothesis Hhi : length hi = x_dim L.

(** One iteration of the loop of [sample], in terms of the candidates
    and draws of the specification. *)
Lemma sample_loop_step (fuel : nat) (st : RandomState) (samples : list (list R)) :
  sample_loop fuel L (Value m) lo hi n st samples =
  if (length samples <? n)%nat then
    match fuel with
    | O => (OutOfFuel, st)
    | S fuel' =>
        match comprehension (call L) (candidates_n batch lo hi st) with
        | Ok lls =>
            sample_loop fuel' L (Value m) lo hi n
              (advance (batch * length lo + batch) st)
              (select (candidates_n batch lo hi st)
                 (map (fun l => exp (l - m)) lls)
                 (draws_n batch (length lo) st) ++ samples)
        | Raise e => (Fail e, advance (batch * length lo) st)
        end
    end
  else (Done (take n samples), st).
Proof using Hlo Hhi.
  destruct fuel as [|fuel]; [reflexivity|].
  cbn [sample_loop]. destruct (length samples <? n)%nat; [|reflexivity].
  unfold uniform_matrix.
  rewrite (broadcast_to_same _ lo Hlo), (broadcast_to_same _ hi Hhi).
  rewrite uniform_rows_formula by congruence.
  unfold loglike. cbn [to_array bind].
  destruct (comprehension (call L) (candidates_n batch lo hi st)) as [lls|e];
    [|reflexivity].
  cbn [bind ratio_of]. rewrite uniform_vector_formula, advance_advance.
  reflexivity.
Qed.

Lemma sample_loop_sound (fuel : nat) (st st' : RandomState)
    (samples res : list (list R)) :
  sample_loop fuel L (Value m) lo hi n st samples = (Done res, st') ->
  exists acc, spec_sample_loop L m lo hi n st samples st' acc /\ res = take n acc.
Proof using Hlo Hhi.
  revert st samples. induction fuel as [|fuel IH]; intros st samples;
    rewrite sample_loop_step; destruct (length samples <? n)%nat eqn:Hlt.
  - discriminate.
  - intros [= <- <-]. exists samples. split; [|reflexivity].
    apply spec_stop, Nat.ltb_ge. exact Hlt.
  - destruct (comprehension (call L) (candidates_n batch lo hi st)) as [lls|e] eqn:Hc;
      [|discriminate].
    intros Hrun. destruct (IH _ _ Hrun) as [acc [Hspec Hres]].
    exists acc. split; [|exact Hres].
    apply comprehension_Ok in Hc.
    eapply spec_step; [apply Nat.ltb_lt; exact Hlt|exact Hc| |exact Hspec].
    apply select_spec_accept.
    + eapply Forall2_length, Hc.
    + unfold spec_candidates, spec_draws.
      rewrite length_candidates_n, length_draws_n. reflexivity.
  - intros [= <- <-]. exists samples. split; [|reflexivity].
    apply spec_stop, Nat.ltb_ge. exact Hlt.
Qed.

Lemma sample_loop_complete (st st' : RandomState) (samples acc : list (list R)) :
  spec_sample_loop L m lo hi n st samples st' acc ->
  exists fuel,
    sample_loop fuel L (Value m) lo hi n st samples = (Done (take n acc), st').
Proof using Hlo Hhi.
  induction 1 as [st acc Hge|st acc lls accepted st' acc' Hlt Hc Hacc _ [fuel IH]].
  - exists 0%nat. rewrite sample_loop_step.
    apply Nat.ltb_ge in Hge. rewrite Hge. reflexivity.
  - exists (S fuel). rewrite sample_loop_step.
    apply Nat.ltb_lt in Hlt. rewrite Hlt.
    apply comprehension_Ok in Hc. apply spec_accept_select in Hacc.
    change (candidates_n batch lo hi st) with (spec_candidates lo hi st).
    rewrite Hc. change (draws_n batch (length lo) st) with (spec_draws (length lo) st).
    rewrite <- Hacc. exact IH.
Qed.
End Refinement.

(** C4. [sample] is the algorithm of the specification: a run returns
    [res] iff iterations that each draw 1000 candidates uniformly from
    the box, evaluate them in one batch, draw one uniform number per
    candidate and accept the candidates whose ratio
    [exp(loglike - max_loglike)] exceeds their draw, accumulate [acc]
    with at least [n] rows, of which [res] is the first [n]; an
    iteration has exactly 1000 candidates and 1000 draws. *)
Theorem sample_follows_algorithm (L : Likelihood) (m : R) (lo hi : list R) (n : nat)
    (st st' : RandomState) (res : list (list R)) :
  read (max_loglike L) = Ok (Value m) ->
  read (sample_range L) = Ok (Value (lo, hi)) ->
  length lo = x_dim L -> length hi = x_dim L ->
  ((exists fuel, sample fuel L n st = (Done res, st'))
   <-> (exists acc, spec_sample_loop L m lo hi n st [] st' acc /\ res = take n acc))
  /\ length (spec_candidates lo hi st) = 1000%nat
  /\ length (spec_draws (length lo) st) = 1000%nat.
Proof.
  intros Hm Hrange Hlo Hhi. split; [|split].
  - unfold sample. rewrite Hm, Hrange. split.
    + intros [fuel Hrun]. eapply sample_loop_sound; eassumption.
    + intros [acc [Hspec ->]]. eapply sample_loop_complete; eassumption.
  - apply length_candidates_n.
  - apply length_draws_n.
Qed.

(** ** A run of the sampler *)

Lemma comprehension_const {A B C : Type} (f : A -> res B) (c : A) (y : B) (l : list C) :
  f c = Ok y -> comprehension f (map (fun _ => c) l) = Ok (map (fun _ => y) l).
Proof.
  intros Hf. induction l as [|x l IH]; [reflexivity|].
  cbn [map comprehension]. rewrite Hf, IH. reflexivity.
Qed.

Lemma select_all_const {C : Type} (c : list R) (v m u : R) (l : list C) :
  exp (v - m) > u ->
  select (map (fun _ => c) l) (map (fun x => exp (x - m)) (map (fun _ => v) l))
    (map (fun _ => u) l)
  = map (fun _ => c) l.
Proof.
  intros Hgt. induction l as [|x l IH]; [reflexivity|].
  cbn [map select]. destruct (Rgt_dec _ _); [|contradiction].
  rewrite IH. reflexivity.
Qed.

Lemma Himmelblau_sample_run :
  sample 1 Himmelblau 2 zero_state
  = (Done [lower_corner; lower_corner], advance (batch * 2 + batch) zero_state).
Proof.
  unfold sample. cbn [read max_loglike sample_range Himmelblau].
  rewrite Himmelblau_call_3_2. cbn [bind].
  rewrite (sample_loop_step Himmelblau 0 (replicate 2 (-5)) (replicate 2 5) 2
             eq_refl eq_refl).
  change (length (@nil (list R)) <? 2)%nat with true. cbv iota.
  change (candidates_n batch (replicate 2 (-5)) (replicate 2 5) zero_state)
    with (map (fun _ : nat => lower_corner) (seq 0 batch)).
  change (draws_n batch (length (replicate 2 (-5))) zero_state)
    with (map (fun _ : nat => 0) (seq 0 batch)).
  rewrite (comprehension_const (call Himmelblau) lower_corner _ (seq 0 batch) eq_refl).
  rewrite select_all_const by (rewrite Rminus_0_r; apply exp_pos).
  rewrite (sample_loop_step Himmelblau 0 (replicate 2 (-5)) (replicate 2 5) 2
             eq_refl eq_refl).
  rewrite length_app, length_map, length_seq.
  reflexivity.
Qed.

Lemma valid_zero_state : valid zero_state.
Proof. intros i. cbn. lra. Qed.

Lemma sample_follows_algorithm_witness :
  ((exists fuel,
      sample fuel Himmelblau 2 zero_state
      = (Done [lower_corner; lower_corner], advance (batch * 2 + batch) zero_state))
   <-> (exists acc,
          spec_sample_loop Himmelblau 0 (replicate 2 (-5)) (replicate 2 5) 2
            zero_state [] (advance (batch * 2 + batch) zero_state) acc
          /\ [lower_corner; lower_corner] = take 2 acc))
  /\ length (spec_candidates (replicate 2 (-5)) (replicate 2 5) zero_state) = 1000%nat
  /\ length (spec_draws (length (replicate 2 (-5))) zero_state) = 1000%nat.
Proof.
  apply (sample_follows_algorithm Himmelblau 0 (replicate 2 (-5)) (replicate 2 5) 2
           zero_state (advance (batch * 2 + batch) zero_state)
           [lower_corner; lower_corner]).
  - cbn [read max_loglike Himmelblau]. rewrite Himmelblau_call_3_2. reflexivity.
  - reflexivity.
  - reflexivity.
  - reflexivity.
Defined.

(** ** max_loglike as an upper bound *)

Lemma two_equal_components_init :
  GaussianMix_init 2 (1 / 2) [1 / 2; 1 / 2] 1 = Ok two_equal_components.
Proof.
  unfold GaussianMix_init.
  assert (Hlen : bool_decide (length [1 / 2; 1 / 2] ∈ [2; 3; 4]%nat) = true)
    by (apply len_ok_decide; unfold len_ok; simpl; lia).
  assert (Hsum : isclose (sum [1 / 2; 1 / 2]) 1 = true).
  { apply isclose_1_spec. rewrite !sum_cons, sum_nil.
    replace (1 / 2 + (1 / 2 + 0) - 1) with 0 by lra. rewrite Rabs_R0. lra. }
  rewrite Hlen, Hsum. reflexivity.
Qed.

(** The mixture of two equal components at (0, 1/2) and (0, -1/2) on a
    point (a, b). *)
Lemma two_equal_components_call (a b : R) :
  call (GaussianMix two_equal_components) [a; b]
  = Ok (ln (exp (- ((a ^ 2 + (b - 1 / 2) ^ 2) / 2) + (ln (1 / 2) - ln (2 * PI)))
            + exp (- ((a ^ 2 + (b + 1 / 2) ^ 2) / 2) + (ln (1 / 2) - ln (2 * PI))))).
Proof.
  cbn [call GaussianMix]. unfold GaussianMix_call.
  cbn [gm_positions two_equal_components comprehension isub_slice2 take length
       Nat.eqb zip_with drop app bind gm_weights seq gm_logl lookup list_lookup
       gm_sigmas].
  unfold log_gaussian_pdf. cbn [bind elements map length].
  unfold logsumexp. cbn [map]. rewrite !sum_cons, sum_nil.
  replace (2 * PI * 1 ^ 2) with (2 * PI) by lra.
  do 2 f_equal. rewrite !Rplus_0_r. f_equal; f_equal; simpl; field.
Qed.

Lemma exp_eighth_bounds : 7 / 8 <= exp (- (1 / 8)) < 1.
Proof.
  split.
  - pose proof (exp_ineq1_le (- (1 / 8))). lra.
  - pose proof (exp_increasing (- (1 / 8)) 0) as H. rewrite exp_0 in H.
    apply H. lra.
Qed.

Lemma exp_half_eighth : exp (- (1 / 2)) = exp (- (1 / 8)) ^ 4.
Proof.
  replace (- (1 / 2)) with (- (1 / 8) + (- (1 / 8) + (- (1 / 8) + - (1 / 8)))) by lra.
  rewrite !exp_plus. simpl. ring.
Qed.

Lemma two_equal_components_max_loglike :
  invoke (max_loglike (GaussianMix two_equal_components))
  = call (GaussianMix two_equal_components) [0; 1 / 2].
Proof.
  cbn [invoke max_loglike GaussianMix]. unfold GaussianMix_max_loglike.
  cbn [gm_weights two_equal_components argmax argmax_from].
  destruct (Rlt_dec (1 / 2) (1 / 2)) as [H|_]; [lra|]. reflexivity.
Qed.

(** C2 ([evaluate(p) <= max_loglike] for every [p] of the box
    [sample_range]) does not hold for GaussianMix. For the mixture of two
    equal components at (0, 1/2) and (0, -1/2) with sigma = 1, which
    [__init__] accepts, [max_loglike] is the log-density at (0, 1/2); the
    origin lies in the box and has a strictly greater log-density. *)
Theorem GaussianMix_max_loglike_understates :
  GaussianMix_init 2 (1 / 2) [1 / 2; 1 / 2] 1 = Ok two_equal_components
  /\ read (sample_range (GaussianMix two_equal_components))
     = Ok (Value ([- (1 / 2) - 5 * 1; - (1 / 2) - 5 * 1], [1 / 2 + 5 * 1; 1 / 2 + 5 * 1]))
  /\ in_box [- (1 / 2) - 5 * 1; - (1 / 2) - 5 * 1] [1 / 2 + 5 * 1; 1 / 2 + 5 * 1] [0; 0]
  /\ exists mx v,
       invoke (max_loglike (GaussianMix two_equal_components)) = Ok mx
       /\ call (GaussianMix two_equal_components) [0; 0] = Ok v
       /\ mx < v.
Proof.
  split; [exact two_equal_components_init|].
  split; [reflexivity|].
  split; [split; repeat constructor; lra|].
  rewrite two_equal_components_max_loglike, !two_equal_components_call.
  eexists. eexists. split; [reflexivity|]. split; [reflexivity|].
  set (K := ln (1 / 2) - ln (2 * PI)).
  replace (- ((0 ^ 2 + (1 / 2 - 1 / 2) ^ 2) / 2) + K) with (0 + K) by (simpl; lra).
  replace (- ((0 ^ 2 + (1 / 2 + 1 / 2) ^ 2) / 2) + K) with (- (1 / 2) + K)
    by (simpl; lra).
  replace (- ((0 ^ 2 + (0 - 1 / 2) ^ 2) / 2) + K) with (- (1 / 8) + K) by (simpl; lra).
  replace (- ((0 ^ 2 + (0 + 1 / 2) ^ 2) / 2) + K) with (- (1 / 8) + K) by (simpl; lra).
  rewrite !exp_plus, exp_0, exp_half_eighth.
  pose proof exp_eighth_bounds as [Hlo Hhi].
  pose proof (exp_pos K) as HK.
  set (u := exp (- (1 / 8))) in *. set (E := exp K) in *.
  assert (Hu : 1 + u ^ 4 < 2 * u).
  { assert (H2 : 49 / 64 <= u * u) by nra.
    assert (H3 : 0 < u * u * u) by (apply Rmult_lt_0_compat; nra).
    assert (H4 : 0 < (1 - u) * (u * u * u + u * u + u - 1))
      by (apply Rmult_lt_0_compat; lra).
    simpl. lra. }
  apply ln_increasing; nra.
Qed.

(** The other variants, whose formulas are in the module, stay below
    their [max_loglike] on every point. *)

Lemma Rosenbrock_terms_nonneg (xs ys : list R) :
  Forall (fun t => 0 <= t)
    (zip_with (fun a b => 100 * (a - b ^ 2) ^ 2 + (1 - b) ^ 2) xs ys).
Proof.
  revert ys. induction xs as [|a xs IH]; intros [|b ys]; cbn [zip_with];
    try constructor; [|apply IH].
  pose proof (pow2_ge_0 (a - b ^ 2)). pose proof (pow2_ge_0 (1 - b)). lra.
Qed.

Lemma Rosenbrock_le_max (d : nat) (x : list R) :
  exists v, call (Rosenbrock d) x = Ok v
            /\ invoke (max_loglike (Rosenbrock d)) = Ok 0 /\ v <= 0.
Proof.
  eexists. split; [reflexivity|]. split; [apply Rosenbrock_call_ones|].
  pose proof (sum_nonneg _ (Rosenbrock_terms_nonneg (tail x) (removelast x))). lra.
Qed.

Lemma Himmelblau_le_max (x0 x1 : R) :
  exists v, call Himmelblau [x0; x1] = Ok v
            /\ invoke (max_loglike Himmelblau) = Ok 0 /\ v <= 0.
Proof.
  eexists. split; [reflexivity|]. split; [exact Himmelblau_call_3_2|].
  pose proof (pow2_ge_0 (x0 ^ 2 + x1 - 11)). pose proof (pow2_ge_0 (x0 + x1 ^ 2 - 7)).
  lra.
Qed.

Lemma GaussianShell_le_max (d : nat) (sigma rshell : R) (x : list R) :
  sigma <> 0 -> 0 <= rshell ->
  exists v, call (GaussianShell d sigma rshell) x = Ok v
            /\ invoke (max_loglike (GaussianShell d sigma rshell)) = Ok 0 /\ v <= 0.
Proof.
  intros Hs Hr. eexists. split; [reflexivity|].
  assert (Hden : 0 < 2 * sigma ^ 2).
  { pose proof (pow2_ge_0 sigma) as H0.
    assert (sigma ^ 2 <> 0) by (apply pow_nonzero; exact Hs). lra. }
  split.
  - cbn [invoke max_loglike GaussianShell]. unfold GaussianShell_call.
    cbn [map]. rewrite sum_cons.
    replace (map (fun t => t ^ 2) (replicate (d - 1) 0)) with (replicate (d - 1) 0).
    + rewrite sum_replicate_0, Rplus_0_r.
      replace (rshell ^ 2) with (Rsqr rshell) by (unfold Rsqr; simpl; lra).
      rewrite sqrt_Rsqr by exact Hr. f_equal.
      replace (rshell - rshell) with 0 by lra. field. exact Hs.
    + induction (d - 1)%nat as [|k IH]; [reflexivity|].
      cbn [replicate map]. rewrite <- IH. f_equal. lra.
  - set (rad := sqrt _). pose proof (pow2_ge_0 (rad - rshell)) as Hsq.
    unfold Rdiv. rewrite Ropp_mult_distr_l_reverse.
    apply Rge_le, Ropp_0_le_ge_contravar, Rmult_le_pos; [exact Hsq|].
    apply Rlt_le, Rinv_0_lt_compat, Hden.
Qed.

(** ** The sample ranges of the concrete variants *)

Lemma concrete_sample_range (L : Likelihood) :
  concrete L ->
  exists lo hi, read (sample_range L) = Ok (Value (lo, hi))
                /\ length lo = x_dim L /\ length hi = x_dim L.
Proof.
  intros []; (do 2 eexists; split; [reflexivity|]);
    cbn [x_dim Rosenbrock Himmelblau Gaussian Eggbox GaussianShell GaussianMix];
    rewrite !length_replicate; split; reflexivity.
Qed.

Lemma replicate_ordered (d : nat) (a b : R) :
  a <= b -> Forall2 Rle (replicate d a) (replicate d b).
Proof. intros H. apply Forall2_replicate. exact H. Qed.

Lemma GaussianShell_range_ordered (d : nat) (sigma rshell : R) :
  0 <= rshell + 5 * sigma ->
  Forall2 Rle (replicate d (- rshell - 5 * sigma)) (replicate d (rshell + 5 * sigma)).
Proof. intros H. apply replicate_ordered. lra. Qed.

Lemma GaussianMix_range_ordered (g : GaussianMix_obj) :
  0 <= gm_sep g + 5 * gm_sigma g ->
  Forall2 Rle (replicate (gm_x_dim g) (- gm_sep g - 5 * gm_sigma g))
    (replicate (gm_x_dim g) (gm_sep g + 5 * gm_sigma g)).
Proof. intros H. apply replicate_ordered. lra. Qed.

(** * Further properties of the module *)

(** ** loglike: the first failing row *)

Lemma comprehension_Raise {A B : Type} (f : A -> res B) (pre post : list A) (x : A)
    (e : exn) :
  Forall (fun a => exists y, f a = Ok y) pre -> f x = Raise e ->
  comprehension f (pre ++ x :: post) = Raise e.
Proof.
  intros Hpre Hx. induction Hpre as [|a pre [y Ha] _ IH]; cbn [app comprehension].
  - rewrite Hx. reflexivity.
  - rewrite Ha, IH. reflexivity.
Qed.

(** X1. When [evaluate] raises on a row of a batch and returns on the
    rows before it, [loglike] raises that exception and returns no
    array, whatever the later rows are. *)
Theorem loglike_first_error (L : Likelihood) (d : nat) (pre post : list (list R))
    (r : list R) (e : exn) :
  Forall (fun p => exists y, call L p = Ok y) pre -> call L r = Raise e ->
  loglike L (PyArray (Arr2 d (pre ++ r :: post))) = Raise e.
Proof.
  intros Hpre Hr. unfold loglike. cbn [to_array bind].
  rewrite (comprehension_Raise _ pre post r e Hpre Hr). reflexivity.
Qed.

Lemma loglike_first_error_witness :
  loglike Himmelblau (PyArray (Arr2 1 ([] ++ [1] :: [[2]; [3]]))) = Raise IndexError.
Proof.
  apply (loglike_first_error Himmelblau 1 [] [[2]; [3]] [1] IndexError).
  - constructor.
  - reflexivity.
Defined.

(** ** Himmelblau and Eggbox index their argument *)

(** X2. Himmelblau and Eggbox read the coordinates 0 and 1 only: on a
    vector of fewer than two coordinates they raise [IndexError] (and on
    no other), and coordinates after the second do not change the
    value. *)
Theorem fixed_dimension_indexing (x : list R) :
  (Himmelblau_call x = Raise IndexError <-> (length x < 2)%nat)
  /\ (Eggbox_call x = Raise IndexError <-> (length x < 2)%nat)
  /\ (forall e, Himmelblau_call x = Raise e -> e = IndexError)
  /\ (forall e, Eggbox_call x = Raise e -> e = IndexError)
  /\ (forall x0 x1 rest,
        Himmelblau_call (x0 :: x1 :: rest) = Himmelblau_call [x0; x1]
        /\ Eggbox_call (x0 :: x1 :: rest) = Eggbox_call [x0; x1]).
Proof.
  destruct x as [|x0 [|x1 rest]]; cbn; repeat split;
    try (intros; lia); try discriminate; try reflexivity;
    try (intros e [= <-]; reflexivity).
Qed.

Lemma Himmelblau_nonpositive (x : list R) (v : R) :
  Himmelblau_call x = Ok v -> v <= 0.
Proof.
  destruct x as [|x0 [|x1 rest]]; try discriminate. intros [= <-].
  pose proof (pow2_ge_0 (x0 ^ 2 + x1 - 11)). pose proof (pow2_ge_0 (x0 + x1 ^ 2 - 7)).
  lra.
Qed.

(** X3. Whenever Himmelblau returns a value, on a vector of any length,
    the value is at most its [max_loglike], which is 0. *)
Theorem Himmelblau_bounded_by_max (x : list R) (v : R) :
  call Himmelblau x = Ok v ->
  exists mx, invoke (max_loglike Himmelblau) = Ok mx /\ mx = 0 /\ v <= mx.
Proof.
  intros H. exists 0. split; [exact Himmelblau_call_3_2|].
  split; [reflexivity|]. eapply Himmelblau_nonpositive, H.
Qed.

Lemma Himmelblau_bounded_by_max_witness :
  exists mx, invoke (max_loglike Himmelblau) = Ok mx /\ mx = 0
             /\ - (0 ^ 2 + 0 - 11) ^ 2 - (0 + 0 ^ 2 - 7) ^ 2 <= mx.
Proof.
  apply (Himmelblau_bounded_by_max [0; 0; 7]). reflexivity.
Defined.

(** ** The shape of Eggbox *)

Lemma cos_half_period (t : R) : cos ((t + 4 * PI) / 2) = cos (t / 2).
Proof.
  replace ((t + 4 * PI) / 2) with (t / 2 + 2 * PI) by lra.
  rewrite cos_plus, cos_2PI, sin_2PI. lra.
Qed.

Lemma cos_half_even (t : R) : cos (- t / 2) = cos (t / 2).
Proof. replace (- t / 2) with (- (t / 2)) by lra. apply cos_neg. Qed.

(** X4. Eggbox has period [4 pi] in each coordinate, is even in each
    coordinate and symmetric in its two coordinates; it takes the value 1
    at [(2 pi, 0)]. *)
Theorem Eggbox_symmetries (x0 x1 : R) :
  Eggbox_call [x0 + 4 * PI; x1] = Eggbox_call [x0; x1]
  /\ Eggbox_call [x0; x1 + 4 * PI] = Eggbox_call [x0; x1]
  /\ Eggbox_call [- x0; x1] = Eggbox_call [x0; x1]
  /\ Eggbox_call [x0; - x1] = Eggbox_call [x0; x1]
  /\ Eggbox_call [x1; x0] = Eggbox_call [x0; x1]
  /\ Eggbox_call [2 * PI; 0] = Ok 1.
Proof.
  unfold Eggbox_call. cbn [getitem lookup list_lookup bind].
  rewrite !cos_half_period, !cos_half_even.
  repeat split; try reflexivity.
  - do 3 f_equal. apply Rmult_comm.
  - replace (2 * PI / 2) with PI by lra. replace (0 / 2) with 0 by lra.
    rewrite cos_PI, cos_0. f_equal. lra.
Qed.

(** ** The covariance of Gaussian *)

(** X5. The covariance matrix that Gaussian hands to SciPy has [x_dim]
    rows of [x_dim] entries, 1 on the diagonal and [corr] elsewhere; in
    particular it is symmetric. *)
Theorem Gaussian_cov_entries (d : nat) (corr : R) :
  Gaussian_cov d corr
  = map (fun i => map (fun j => if Nat.eqb i j then 1 else corr) (seq 0 d)) (seq 0 d)
  /\ length (Gaussian_cov d corr) = d
  /\ Forall (fun row => length row = d) (Gaussian_cov d corr)
  /\ (forall i j a b ri rj,
        Gaussian_cov d corr !! i = Some ri -> ri !! j = Some a ->
        Gaussian_cov d corr !! j = Some rj -> rj !! i = Some b -> a = b).
Proof.
  assert (Heq : Gaussian_cov d corr
    = map (fun i => map (fun j => if Nat.eqb i j then 1 else corr) (seq 0 d)) (seq 0 d)).
  { unfold Gaussian_cov. apply map_ext. intros i. apply map_ext. intros j.
    unfold eye. destruct (Nat.eqb i j); lra. }
  split; [exact Heq|]. rewrite Heq. split; [|split].
  - rewrite length_map, length_seq. reflexivity.
  - apply Forall_forall. intros row Hrow. apply list_elem_of_In, in_map_iff in Hrow.
    destruct Hrow as [i [<- _]]. rewrite length_map, length_seq. reflexivity.
  - intros i j a b ri rj Hi Hij Hj Hji.
    change (@map nat) with (@fmap list _ nat) in *.
    rewrite list_lookup_fmap in Hi, Hj.
    destruct (seq 0 d !! i) as [i'|] eqn:Hsi; [|discriminate].
    destruct (seq 0 d !! j) as [j'|] eqn:Hsj; [|discriminate].
    apply lookup_seq in Hsi as [-> _]. apply lookup_seq in Hsj as [-> _].
    cbn in Hi, Hj. injection Hi as <-. injection Hj as <-.
    rewrite list_lookup_fmap in Hij, Hji.
    destruct (seq 0 d !! j) as [j'|] eqn:Hsj; [|discriminate].
    destruct (seq 0 d !! i) as [i'|] eqn:Hsi; [|discriminate].
    apply lookup_seq in Hsi as [-> _]. apply lookup_seq in Hsj as [-> _].
    cbn in Hij, Hji. injection Hij as <-. injection Hji as <-.
    rewrite (Nat.eqb_sym j i). reflexivity.
Qed.

(** ** log_gaussian_pdf *)

Lemma Ok_inj {A : Type} (a b : A) : Ok a = Ok b -> a = b.
Proof. congruence. Qed.

Lemma sum_app (l1 l2 : list R) : sum (l1 ++ l2) = sum l1 + sum l2.
Proof.
  induction l1 as [|x l1 IH]; cbn [app].
  - rewrite sum_nil. lra.
  - rewrite !sum_cons, IH. lra.
Qed.

Lemma sum_squares_nonneg (mu : R) (v : list R) :
  0 <= sum (map (fun t => (t - mu) ^ 2) v).
Proof.
  apply sum_nonneg. induction v as [|t v IH]; cbn [map]; constructor; [|exact IH].
  apply pow2_ge_0.
Qed.

Lemma sum_squares_zero (mu : R) (v : list R) :
  sum (map (fun t => (t - mu) ^ 2) v) = 0 <-> v = replicate (length v) mu.
Proof.
  induction v as [|t v IH]; cbn [map length replicate]; [rewrite sum_nil; tauto|].
  rewrite sum_cons. pose proof (pow2_ge_0 (t - mu)) as Ht.
  pose proof (sum_squares_nonneg mu v) as Hv. split.
  - intros H. assert (Ht0 : (t - mu) ^ 2 = 0) by lra.
    assert (Hv0 : sum (map (fun t => (t - mu) ^ 2) v) = 0) by lra.
    apply IH in Hv0. rewrite <- Hv0. f_equal.
    assert (t - mu = 0); [|lra].
    destruct (Req_dec (t - mu) 0) as [H0|H0]; [exact H0|].
    apply (pow_nonzero _ 2) in H0. contradiction.
  - intros [= -> Hv']. apply IH in Hv'. rewrite Hv'. simpl. lra.
Qed.

(** X6. An isotropic Gaussian factorises: the log-density of a vector
    is the sum of the log-densities that [log_gaussian_pdf] gives to its
    coordinates taken one by one as Python numbers. *)
Theorem log_gaussian_pdf_factorises (v : list R) (sigma mu : R) :
  exists ys,
    Forall2 (fun t y => log_gaussian_pdf (ThetaNum t) sigma mu None = Ok y) v ys
    /\ log_gaussian_pdf (ThetaArr v) sigma mu None = Ok (sum ys).
Proof.
  exists (map (fun t => - ((t - mu) ^ 2 / (2 * sigma ^ 2))
                        - ln (2 * PI * sigma ^ 2) * 1 / 2) v).
  split.
  - induction v as [|t v IH]; cbn [map]; constructor; [|exact IH].
    unfold log_gaussian_pdf, bind, elements, map. rewrite sum_cons, sum_nil.
    f_equal. simpl INR. unfold Rdiv. ring.
  - unfold log_gaussian_pdf, bind, elements. f_equal.
    induction v as [|t v IH]; cbn [map length].
    + rewrite !sum_nil. simpl. unfold Rdiv. ring.
    + rewrite !sum_cons, <- IH, S_INR. unfold Rdiv. ring.
Qed.

(** X7. For [sigma <> 0] the log-density of a vector of dimension [d] is
    at most [- log(2 pi sigma^2) * d / 2], and it has this value exactly
    when every coordinate equals [mu]. *)
Theorem log_gaussian_pdf_mode (v : list R) (sigma mu y : R) :
  sigma <> 0 ->
  log_gaussian_pdf (ThetaArr v) sigma mu None = Ok y ->
  y <= - ln (2 * PI * sigma ^ 2) * INR (length v) / 2
  /\ (y = - ln (2 * PI * sigma ^ 2) * INR (length v) / 2
      <-> v = replicate (length v) mu).
Proof.
  intros Hs. unfold log_gaussian_pdf, bind, elements. intros H.
  apply Ok_inj in H. subst y.
  assert (Hden : 0 < / (2 * sigma ^ 2)).
  { apply Rinv_0_lt_compat. pose proof (pow2_ge_0 sigma).
    assert (sigma ^ 2 <> 0) by (apply pow_nonzero; exact Hs). lra. }
  pose proof (sum_squares_nonneg mu v) as Hsq.
  rewrite <- (sum_squares_zero mu v).
  set (S := sum (map (fun t => (t - mu) ^ 2) v)) in *.
  set (L := ln (2 * PI * sigma ^ 2)). set (N := INR (length v)).
  assert (HP : 0 <= S * / (2 * sigma ^ 2)) by (apply Rmult_le_pos; lra).
  assert (HP0 : S * / (2 * sigma ^ 2) = 0 <-> S = 0).
  { split; [|intros ->; ring].
    intros H. apply Rmult_integral in H as [H|H]; lra. }
  unfold Rdiv. rewrite <- HP0. set (P := S * / (2 * sigma ^ 2)) in *.
  split; [nra|]. split; intros H; nra.
Qed.

Lemma log_gaussian_pdf_mode_witness :
  - (sum (map (fun t => (t - 0) ^ 2) [1; 2]) / (2 * 1 ^ 2))
  - ln (2 * PI * 1 ^ 2) * INR (length [1; 2]) / 2
  <= - ln (2 * PI * 1 ^ 2) * INR (length [1; 2]) / 2
  /\ (- (sum (map (fun t => (t - 0) ^ 2) [1; 2]) / (2 * 1 ^ 2))
      - ln (2 * PI * 1 ^ 2) * INR (length [1; 2]) / 2
      = - ln (2 * PI * 1 ^ 2) * INR (length [1; 2]) / 2
      <-> [1; 2] = replicate (length [1; 2]) 0).
Proof.
  apply (log_gaussian_pdf_mode [1; 2] 1 0).
  - lra.
  - reflexivity.
Defined.

(** ** GaussianShell *)

(** X8. For [sigma <> 0] GaussianShell is at most 0 everywhere and is 0
    exactly on the sphere of radius [rshell]; for [rshell >= 0] its
    [max_loglike] is this value 0. *)
Theorem GaussianShell_zero_on_shell (d : nat) (sigma rshell : R) (x : list R) (v : R) :
  sigma <> 0 ->
  call (GaussianShell d sigma rshell) x = Ok v ->
  v <= 0
  /\ (v = 0 <-> sqrt (sum (map (fun t => t ^ 2) x)) = rshell)
  /\ (0 <= rshell -> invoke (max_loglike (GaussianShell d sigma rshell)) = Ok 0).
Proof.
  intros Hs. cbn [call GaussianShell]. unfold GaussianShell_call. intros H.
  apply Ok_inj in H. subst v.
  assert (Hden : 0 < / (2 * sigma ^ 2)).
  { apply Rinv_0_lt_compat. pose proof (pow2_ge_0 sigma).
    assert (sigma ^ 2 <> 0) by (apply pow_nonzero; exact Hs). lra. }
  set (rad := sqrt _). pose proof (pow2_ge_0 (rad - rshell)) as Hsq.
  split; [unfold Rdiv; nra|]. split.
  - split.
    + intros H. assert (H0 : (rad - rshell) ^ 2 = 0) by (unfold Rdiv in H; nra).
      destruct (Req_dec (rad - rshell) 0) as [Hz|Hz]; [lra|].
      apply (pow_nonzero _ 2) in Hz. contradiction.
    + intros ->. replace (rshell - rshell) with 0 by lra. unfold Rdiv. simpl. ring.
  - intros Hr. destruct (GaussianShell_le_max d sigma rshell [] Hs Hr) as [_ [_ [H _]]].
    exact H.
Qed.

Lemma GaussianShell_zero_on_shell_witness :
  - ((sqrt (sum (map (fun t => t ^ 2) [0; 0])) - 2) ^ 2) / (2 * 1 ^ 2) <= 0
  /\ (- ((sqrt (sum (map (fun t => t ^ 2) [0; 0])) - 2) ^ 2) / (2 * 1 ^ 2) = 0
      <-> sqrt (sum (map (fun t => t ^ 2) [0; 0])) = 2)
  /\ (0 <= 2 -> invoke (max_loglike (GaussianShell 2 1 2)) = Ok 0).
Proof.
  apply (GaussianShell_zero_on_shell 2 1 2 [0; 0]).
  - lra.
  - reflexivity.
Defined.

(** ** Rosenbrock *)

Lemma Rosenbrock_sum_step (a b : R) (rest : list R) :
  sum (zip_with (fun a b => 100 * (a - b ^ 2) ^ 2 + (1 - b) ^ 2)
         (tail (a :: b :: rest)) (removelast (a :: b :: rest)))
  = 100 * (b - a ^ 2) ^ 2 + (1 - a) ^ 2
    + sum (zip_with (fun a b => 100 * (a - b ^ 2) ^ 2 + (1 - b) ^ 2)
             (tail (b :: rest)) (removelast (b :: rest))).
Proof.
  change (removelast (a :: b :: rest)) with (a :: removelast (b :: rest)).
  cbn [tail]. destruct rest as [|c rest].
  - cbn [removelast zip_with]. rewrite sum_cons. reflexivity.
  - change (removelast (b :: c :: rest)) with (b :: removelast (c :: rest)).
    cbn [zip_with]. rewrite !sum_cons. reflexivity.
Qed.

Lemma Rosenbrock_sum_zero (x : list R) :
  (2 <= length x)%nat ->
  sum (zip_with (fun a b => 100 * (a - b ^ 2) ^ 2 + (1 - b) ^ 2)
         (tail x) (removelast x)) = 0 ->
  x = replicate (length x) 1.
Proof.
  induction x as [|a x IH]; [cbn; lia|].
  destruct x as [|b rest]; [cbn; lia|]. intros _.
  rewrite Rosenbrock_sum_step.
  pose proof (sum_nonneg _ (Rosenbrock_terms_nonneg (tail (b :: rest))
                              (removelast (b :: rest)))) as Hrest.
  pose proof (pow2_ge_0 (b - a ^ 2)) as H1. pose proof (pow2_ge_0 (1 - a)) as H2.
  intros H.
  assert (Ha : (1 - a) ^ 2 = 0) by lra.
  assert (Hb : (b - a ^ 2) ^ 2 = 0) by lra.
  assert (Hr : sum (zip_with (fun a b => 100 * (a - b ^ 2) ^ 2 + (1 - b) ^ 2)
                      (tail (b :: rest)) (removelast (b :: rest))) = 0) by lra.
  assert (Ha1 : a = 1).
  { destruct (Req_dec (1 - a) 0) as [Hz|Hz]; [lra|].
    apply (pow_nonzero _ 2) in Hz. contradiction. }
  assert (Hb1 : b = 1).
  { destruct (Req_dec (b - a ^ 2) 0) as [Hz|Hz]; [rewrite Ha1 in Hz; lra|].
    apply (pow_nonzero _ 2) in Hz. contradiction. }
  subst a b. destruct rest as [|c rest]; [reflexivity|].
  cbn [length replicate]. f_equal. apply IH; [cbn; lia|exact Hr].
Qed.

(** X9. Rosenbrock is at most 0 on every vector; on a vector of at least
    two coordinates it is 0 only at the all-ones vector, and on a vector
    of fewer than two coordinates it is 0 whatever the coordinate. *)
Theorem Rosenbrock_unique_maximum (x : list R) :
  exists v, Rosenbrock_call x = Ok v
            /\ v <= 0
            /\ ((2 <= length x)%nat -> (v = 0 <-> x = replicate (length x) 1))
            /\ ((length x < 2)%nat -> v = 0).
Proof.
  eexists. split; [reflexivity|].
  pose proof (sum_nonneg _ (Rosenbrock_terms_nonneg (tail x) (removelast x))) as Hs.
  split; [lra|]. split.
  - intros Hlen. split.
    + intros H. apply Rosenbrock_sum_zero; [exact Hlen|lra].
    + intros Hx. pose proof (Rosenbrock_call_ones (length x)) as H1.
      rewrite <- Hx in H1. unfold Rosenbrock_call in H1. injection H1 as H1. exact H1.
  - intros Hlen. destruct x as [|a [|b rest]]; [| |cbn in Hlen; lia];
      cbn [tail removelast zip_with]; rewrite sum_nil; lra.
Qed.

(** ** What one iteration of the sampler accepts *)

(** X10. The rows that an iteration accepts are a subsequence of its
    candidates: they are candidates, in the order of the candidates,
    each at most once, so an iteration adds no more rows than it has
    candidates. *)
Theorem select_sublist (x : list (list R)) (ratio r : list R) :
  select x ratio r `sublist_of` x
  /\ (length (select x ratio r) <= length x)%nat.
Proof.
  assert (H : select x ratio r `sublist_of` x).
  { revert ratio r. induction x as [|row x IH]; intros ratio r; [constructor|].
    destruct ratio as [|q ratio]; [apply sublist_nil_l|].
    destruct r as [|u r]; [apply sublist_nil_l|]. cbn [select].
    destruct (Rgt_dec q u); [apply sublist_skip|apply sublist_cons]; apply IH. }
  split; [exact H|]. apply sublist_length, H.
Qed.

Lemma select_length_le (x : list (list R)) (ratio r : list R) :
  (length (select x ratio r) <= length x)%nat.
Proof.
  revert ratio r. induction x as [|row x IH]; intros [|q ratio] [|u r];
    cbn [select length]; try lia.
  destruct (Rgt_dec q u); cbn [length]; specialize (IH ratio r); lia.
Qed.

(** X11. A candidate whose log-density is at least [max_loglike] is
    always accepted: its ratio is at least 1 and a draw is below 1. *)
Theorem select_accepts_at_max (x : list (list R)) (lls us : list R) (m : R) (i : nat)
    (row : list R) (ll u : R) :
  x !! i = Some row -> lls !! i = Some ll -> us !! i = Some u ->
  u < 1 -> m <= ll ->
  row ∈ select x (map (fun l => exp (l - m)) lls) us.
Proof.
  revert lls us i. induction x as [|c x IH]; intros lls us i Hx Hl Hu Hu1 Hm.
  - discriminate.
  - destruct lls as [|l lls]; [discriminate|]. destruct us as [|u' us]; [discriminate|].
    cbn [map select]. destruct i as [|i].
    + injection Hx as ->. injection Hl as ->. injection Hu as ->.
      destruct (Rgt_dec (exp (ll - m)) u) as [_|Hn]; [apply list_elem_of_here|].
      exfalso. apply Hn.
      assert (1 <= exp (ll - m)); [|lra].
      rewrite <- exp_0. destruct (Req_dec (ll - m) 0) as [->|Hne]; [lra|].
      apply Rlt_le, exp_increasing. lra.
    + cbn in Hx, Hl, Hu. specialize (IH lls us i Hx Hl Hu Hu1 Hm).
      destruct (Rgt_dec _ _); [apply list_elem_of_further|]; exact IH.
Qed.

Lemma select_accepts_at_max_witness :
  [3; 2] ∈ select [[0; 0]; [3; 2]] (map (fun l => exp (l - 0)) [-170; 0]) [1 / 2; 1 / 2].
Proof.
  apply (select_accepts_at_max [[0; 0]; [3; 2]] [-170; 0] [1 / 2; 1 / 2] 0 1 [3; 2]
           0 (1 / 2)).
  - reflexivity.
  - reflexivity.
  - reflexivity.
  - lra.
  - lra.
Defined.

(** ** How much of the generator a run of sample uses *)

Lemma comprehension_all {A B : Type} (f : A -> res B) (P : B -> Prop) (xs : list A) :
  Forall (fun a => exists y, f a = Ok y /\ P y) xs ->
  exists ys, comprehension f xs = Ok ys /\ Forall P ys /\ length ys = length xs.
Proof.
  induction 1 as [|a xs [y [Ha Hy]] _ [ys [Hc [Hys Hlen]]]].
  - exists []. repeat split. constructor.
  - exists (y :: ys). cbn [comprehension]. rewrite Ha, Hc.
    split; [reflexivity|]. split; [constructor; assumption|]. cbn. lia.
Qed.

Lemma draws_n_below_1 (k d : nat) (st : RandomState) :
  valid st -> Forall (fun u => u < 1) (draws_n k d st).
Proof.
  intros Hv. unfold draws_n. apply Forall_forall. intros u Hu.
  apply list_elem_of_In, in_map_iff in Hu. destruct Hu as [i [<- _]]. apply Hv.
Qed.

Section Consumption.
Variable L : Likelihood.
Variable m : R.
Variables lo hi : list R.
Variable n : nat.
Hypothesis Hlo : length lo = x_dim L.
Hypothesis Hhi : length hi = x_dim L.

Lemma sample_loop_consumes (fuel : nat) (st st' : RandomState)
    (samples res : list (list R)) :
  sample_loop fuel L (Value m) lo hi n st samples = (Done res, st') ->
  exists k,
    (k <= fuel)%nat
    /\ st' = advance (k * (batch * length lo + batch)) st
    /\ (n <= length samples + k * batch)%nat
    /\ ((n <= length samples)%nat -> k = 0%nat).
Proof using Hlo Hhi.
  revert st samples. induction fuel as [|fuel IH]; intros st samples;
    rewrite sample_loop_step by assumption;
    destruct (length samples <? n)%nat eqn:Hlt.
  - discriminate.
  - intros H. apply Nat.ltb_ge in Hlt. exists 0%nat.
    assert (Hst : st' = st) by congruence.
    rewrite Hst, advance_0. repeat split; lia.
  - destruct (comprehension (call L) (candidates_n batch lo hi st)) as [lls|e];
      [|discriminate].
    intros Hrun. destruct (IH _ _ Hrun) as (k & Hk & Hst & Hn & _).
    apply Nat.ltb_lt in Hlt. exists (S k).
    rewrite length_app in Hn.
    pose proof (select_length_le (candidates_n batch lo hi st)
                  (map (fun l => exp (l - m)) lls) (draws_n batch (length lo) st)) as Hsel.
    rewrite length_candidates_n in Hsel.
    split; [lia|]. split; [|split; [lia|lia]].
    rewrite Hst, advance_advance. reflexivity.
  - intros H. apply Nat.ltb_ge in Hlt. exists 0%nat.
    assert (Hst : st' = st) by congruence.
    rewrite Hst, advance_0. repeat split; lia.
Qed.

Lemma select_all (x : list (list R)) (lls us : list R) :
  length x = length lls -> length x = length us ->
  Forall (fun ll => m <= ll) lls -> Forall (fun u => u < 1) us ->
  select x (map (fun l => exp (l - m)) lls) us = x.
Proof.
  revert lls us. induction x as [|c x IH]; intros [|ll lls] [|u us] H1 H2 Hl Hu;
    try discriminate; [reflexivity|].
  apply Forall_cons in Hl as [Hll Hl]. apply Forall_cons in Hu as [Hu1 Hu].
  cbn [map select]. destruct (Rgt_dec (exp (ll - m)) u) as [_|Hn].
  - f_equal. apply IH; [cbn in H1; lia|cbn in H2; lia|assumption|assumption].
  - exfalso. apply Hn. assert (1 <= exp (ll - m)); [|lra].
    destruct (Req_dec (ll - m) 0) as [->|Hne]; [rewrite exp_0; lra|].
    pose proof (exp_increasing 0 (ll - m)) as Hinc. rewrite exp_0 in Hinc. lra.
Qed.

Lemma candidates_n_length_rows (k : nat) (st : RandomState) :
  Forall (fun row => length row = x_dim L) (candidates_n k lo hi st).
Proof using Hlo Hhi.
  unfold candidates_n. apply Forall_forall. intros row Hrow.
  apply list_elem_of_In, in_map_iff in Hrow. destruct Hrow as [i [<- _]].
  unfold row_at. rewrite length_imap, length_zip_with_l_eq by congruence. exact Hlo.
Qed.

Hypothesis Hcertain :
  forall row, length row = x_dim L -> exists ll, call L row = Ok ll /\ m <= ll.

Lemma sample_loop_terminates (fuel : nat) (st : RandomState) (samples : list (list R)) :
  valid st -> (n <= length samples + fuel * batch)%nat ->
  exists res st',
    sample_loop fuel L (Value m) lo hi n st samples = (Done res, st')
    /\ length res = n.
Proof using Hlo Hhi Hcertain.
  revert st samples. induction fuel as [|fuel IH]; intros st samples Hv Hn;
    rewrite sample_loop_step by assumption;
    destruct (length samples <? n)%nat eqn:Hlt.
  - apply Nat.ltb_lt in Hlt. lia.
  - apply Nat.ltb_ge in Hlt. do 2 eexists. split; [reflexivity|].
    apply length_take_le. exact Hlt.
  - destruct (comprehension_all (call L) (fun ll => m <= ll)
                (candidates_n batch lo hi st)) as (lls & Hc & Hlls & Hlen).
    { eapply Forall_impl; [apply candidates_n_length_rows|]. exact Hcertain. }
    rewrite Hc. rewrite select_all.
    + apply IH; [exact Hv|]. rewrite length_app, length_candidates_n. lia.
    + symmetry. exact Hlen.
    + rewrite length_candidates_n, length_draws_n. reflexivity.
    + exact Hlls.
    + apply draws_n_below_1. exact Hv.
  - apply Nat.ltb_ge in Hlt. do 2 eexists. split; [reflexivity|].
    apply length_take_le. exact Hlt.
Qed.
End Consumption.

(** X12. A run of [sample] that returns has made some number [k] of
    iterations: it has taken exactly [k * (1000 * x_dim + 1000)]
    variates from the generator, [num_samples <= 1000 * k], and for
    [num_samples = 0] it has taken none. *)
Theorem sample_consumption (L : Likelihood) (m : R) (lo hi : list R) (n fuel : nat)
    (st st' : RandomState) (res : list (list R)) :
  read (max_loglike L) = Ok (Value m) ->
  read (sample_range L) = Ok (Value (lo, hi)) ->
  length lo = x_dim L -> length hi = x_dim L ->
  sample fuel L n st = (Done res, st') ->
  exists k,
    (k <= fuel)%nat
    /\ st' = advance (k * (1000 * x_dim L + 1000)) st
    /\ (n <= k * 1000)%nat
    /\ (n = 0%nat -> k = 0%nat).
Proof.
  intros Hm Hrange Hlo Hhi. unfold sample. rewrite Hm, Hrange. intros Hrun.
  destruct (sample_loop_consumes L m lo hi n Hlo Hhi fuel st st' [] res Hrun)
    as (k & Hk & Hst & Hn & H0).
  exists k. split; [exact Hk|]. split; [|split].
  - rewrite Hst, Hlo. reflexivity.
  - exact Hn.
  - intros ->. apply H0. cbn. lia.
Qed.

Lemma sample_consumption_witness :
  exists k,
    (k <= 1)%nat
    /\ advance (batch * 2 + batch) zero_state
       = advance (k * (1000 * x_dim Himmelblau + 1000)) zero_state
    /\ (2 <= k * 1000)%nat
    /\ (2%nat = 0%nat -> k = 0%nat).
Proof.
  apply (sample_consumption Himmelblau 0 (replicate 2 (-5)) (replicate 2 5) 2 1
           zero_state (advance (batch * 2 + batch) zero_state)
           [lower_corner; lower_corner]).
  - cbn [read max_loglike Himmelblau]. rewrite Himmelblau_call_3_2. reflexivity.
  - reflexivity.
  - reflexivity.
  - reflexivity.
  - exact Himmelblau_sample_run.
Defined.

(** X13. When every point of dimension [x_dim] has a log-density of at
    least [max_loglike] (a flat density), every candidate is accepted
    and [sample] returns [num_samples] rows after any number of
    iterations [fuel] with [num_samples <= 1000 * fuel]. *)
Theorem sample_terminates_when_certain (L : Likelihood) (m : R) (lo hi : list R)
    (n fuel : nat) (st : RandomState) :
  valid st ->
  read (max_loglike L) = Ok (Value m) ->
  read (sample_range L) = Ok (Value (lo, hi)) ->
  length lo = x_dim L -> length hi = x_dim L ->
  (forall row, length row = x_dim L -> exists ll, call L row = Ok ll /\ m <= ll) ->
  (n <= fuel * 1000)%nat ->
  exists res st', sample fuel L n st = (Done res, st') /\ length res = n.
Proof.
  intros Hv Hm Hrange Hlo Hhi Hcertain Hn. unfold sample. rewrite Hm, Hrange.
  apply sample_loop_terminates; assumption.
Qed.

Lemma Rosenbrock_1_flat (row : list R) :
  length row = x_dim (Rosenbrock 1) ->
  exists ll, call (Rosenbrock 1) row = Ok ll /\ 0 <= ll.
Proof.
  intros Hlen. eexists. split; [reflexivity|].
  destruct row as [|a [|b rest]]; try discriminate.
  cbn [tail removelast zip_with]. rewrite sum_nil. lra.
Qed.

Lemma sample_terminates_when_certain_witness :
  exists res st',
    sample 1 (Rosenbrock 1) 3 zero_state = (Done res, st') /\ length res = 3%nat.
Proof.
  apply (sample_terminates_when_certain (Rosenbrock 1) 0 (replicate 1 (-2))
           (replicate 1 12) 3 1 zero_state).
  - exact valid_zero_state.
  - cbn [read max_loglike Rosenbrock]. rewrite Rosenbrock_call_ones. reflexivity.
  - reflexivity.
  - reflexivity.
  - reflexivity.
  - exact Rosenbrock_1_flat.
  - lia.
Defined.

(** X14. On the base class [sample] raises [TypeError], not
    [NotImplementedError], for every [num_samples] (0 included) and
    before it draws anything: reading [sample_range] gives a bound
    method, which cannot be unpacked into [low, high]. *)
Theorem Base_sample_TypeError (d n fuel : nat) (st : RandomState) :
  sample fuel (Base d) n st = (Fail TypeError, st)
  /\ read (max_loglike (Base d)) = Ok BoundMethod
  /\ read (sample_range (Base d)) = Ok BoundMethod.
Proof. repeat split. Qed.

(** ** Calls of GaussianMix do not interfere *)

(** X15. In the store model, evaluating GaussianMix at one array and
    then at another (or at the same one again) gives, for the second
    call, exactly the value of the formula on that array: a call leaves
    nothing behind that a later call could see. *)
Theorem GaussianMix_calls_independent (g : GaussianMix_obj) (t1 t2 : loc)
    (v1 v2 : list R) (h : store) :
  h !! t1 = Some v1 -> h !! t2 = Some v2 ->
  (GaussianMix_call_at g t2 (GaussianMix_call_at g t1 h).2).1 = GaussianMix_call g v2
  /\ (GaussianMix_call_at g t2 (GaussianMix_call_at g t1 h).2).1
     = (GaussianMix_call_at g t2 h).1.
Proof.
  intros H1 H2.
  destruct (GaussianMix_call_at_spec g t1 v1 h H1) as [h1 [E1 Hsub1]].
  destruct (GaussianMix_call_at_spec g t2 v2 h H2) as [h2 [E2 _]].
  rewrite E1. cbn [snd].
  assert (H2' : h1 !! t2 = Some v2) by (eapply lookup_weaken; eassumption).
  destruct (GaussianMix_call_at_spec g t2 v2 h1 H2') as [h3 [E3 _]].
  rewrite E3, E2. split; reflexivity.
Qed.

Lemma GaussianMix_calls_independent_witness :
  (GaussianMix_call_at two_equal_components 0%nat
     (GaussianMix_call_at two_equal_components 0%nat {[0%nat := [0; 0]]}).2).1
  = GaussianMix_call two_equal_components [0; 0]
  /\ (GaussianMix_call_at two_equal_components 0%nat
        (GaussianMix_call_at two_equal_components 0%nat {[0%nat := [0; 0]]}).2).1
     = (GaussianMix_call_at two_equal_components 0%nat {[0%nat := [0; 0]]}).1.
Proof.
  apply (GaussianMix_calls_independent two_equal_components 0%nat 0%nat [0; 0] [0; 0]
           {[0%nat := [0; 0]]}); apply lookup_singleton_eq.
Defined.
(** ** GaussianMix objects that __init__ has built *)

Lemma GaussianMix_init_Ok (d : nat) (sep : R) (w : list R) (sigma : R)
    (g : GaussianMix_obj) :
  GaussianMix_init d sep w sigma = Ok g ->
  len_ok (length w)
  /\ g = {| gm_x_dim := d; gm_sep := sep; gm_weights := w; gm_sigma := sigma;
            gm_sigmas := replicate (length w) sigma;
            gm_positions :=
              take (length w) [[0; sep]; [0; - sep]; [sep; 0]; [- sep; 0]] |}.
Proof.
  unfold GaussianMix_init. pose proof (len_ok_decide (length w)) as Hlen.
  destruct (bool_decide _); cbn [negb]; [|discriminate].
  destruct (isclose (sum w) 1); cbn [negb]; [|discriminate].
  intros H. apply Ok_inj in H. split; [apply Hlen; reflexivity|]. symmetry. exact H.
Qed.

Lemma isub_slice2_pair (a b p q : R) (rest : list R) :
  isub_slice2 (a :: b :: rest) [p; q] = Ok ([a - p; b - q] ++ rest).
Proof. reflexivity. Qed.

Lemma isub_slice2_short (theta pos : list R) :
  (length theta < 2)%nat -> length pos = 2%nat -> isub_slice2 theta pos = Raise ValueError.
Proof.
  intros Hth Hpos. destruct pos as [|p [|q [|? ?]]]; try discriminate.
  destruct theta as [|a [|b rest]]; [reflexivity|reflexivity|cbn in Hth; lia].
Qed.

Lemma comprehension_shift {A : Type} (f f' : A -> res R) (c : R) (xs : list A) :
  (forall x, x ∈ xs -> f' x = (let* y := f x in Ok (y + c))) ->
  comprehension f' xs = (let* ys := comprehension f xs in Ok (map (fun y => y + c) ys)).
Proof.
  induction xs as [|x xs IH]; intros H; [reflexivity|].
  cbn [comprehension]. rewrite (H x) by apply list_elem_of_here.
  rewrite IH by (intros y Hy; apply H, list_elem_of_further, Hy).
  destruct (f x); [|reflexivity]. cbn [bind].
  destruct (comprehension f xs); reflexivity.
Qed.

Lemma sum_exp_shift (c : R) (ls : list R) :
  sum (map exp (map (fun l => l + c) ls)) = exp c * sum (map exp ls).
Proof.
  induction ls as [|l ls IH]; cbn [map].
  - rewrite sum_nil. ring.
  - rewrite !sum_cons, IH, exp_plus. ring.
Qed.

Lemma sum_exp_pos (ls : list R) : ls <> [] -> 0 < sum (map exp ls).
Proof.
  intros Hne. destruct ls as [|l ls]; [congruence|]. cbn [map]. rewrite sum_cons.
  pose proof (exp_pos l).
  assert (0 <= sum (map exp ls)); [|lra].
  apply sum_nonneg. clear. induction ls as [|x ls IH]; cbn [map]; constructor;
    [apply Rlt_le, exp_pos|exact IH].
Qed.

Lemma logsumexp_shift (c : R) (ls : list R) :
  ls <> [] -> logsumexp (map (fun l => l + c) ls) = logsumexp ls + c.
Proof.
  intros Hne. unfold logsumexp. rewrite sum_exp_shift.
  rewrite ln_mult by (try apply exp_pos; apply sum_exp_pos, Hne).
  rewrite ln_exp. ring.
Qed.

Lemma log_gaussian_pdf_app (th rest : list R) (s : R) :
  log_gaussian_pdf (ThetaArr (th ++ rest)) s 0 None
  = (let* y := log_gaussian_pdf (ThetaArr th) s 0 None in
     let* c := log_gaussian_pdf (ThetaArr rest) s 0 None in
     Ok (y + c)).
Proof.
  unfold log_gaussian_pdf, bind, elements.
  rewrite map_app, sum_app, length_app, plus_INR. f_equal. unfold Rdiv. ring.
Qed.

Lemma isub_slice2_all (a b : R) (rest : list R) (ps : list (list R)) :
  Forall (fun pos => exists p q, pos = [p; q]) ps ->
  exists thetas,
    comprehension (isub_slice2 [a; b]) ps = Ok thetas
    /\ comprehension (isub_slice2 (a :: b :: rest)) ps
       = Ok (map (fun th => th ++ rest) thetas)
    /\ length thetas = length ps.
Proof.
  induction 1 as [|pos ps [p [q ->]] _ [thetas [H1 [H2 H3]]]].
  - exists []. repeat split.
  - exists ([a - p; b - q] :: thetas). cbn [comprehension].
    rewrite !isub_slice2_pair, H1, H2.
    rewrite app_nil_r. repeat split. cbn [length]. rewrite H3. reflexivity.
Qed.

Lemma argmax_from_spec (l : list R) :
  forall (p1 : list R) (v : R) (p2 : list R) (i : nat),
    i = (length p1 + S (length p2))%nat ->
    Forall (fun x => x < v) p1 -> Forall (fun x => x <= v) p2 ->
    exists q1 wk q2,
      p1 ++ v :: p2 ++ l = q1 ++ wk :: q2
      /\ length q1 = argmax_from i (length p1) v l
      /\ Forall (fun x => x < wk) q1 /\ Forall (fun x => x <= wk) q2.
Proof.
  induction l as [|w l IH]; intros p1 v p2 i Hi H1 H2.
  - exists p1, v, p2. rewrite app_nil_r. repeat split; assumption.
  - cbn [argmax_from]. destruct (Rlt_dec v w) as [Hlt|Hge].
    + destruct (IH (p1 ++ v :: p2) w [] (S i)) as (q1 & wk & q2 & Heq & Hlen & Hq1 & Hq2).
      * rewrite length_app. cbn [length]. lia.
      * apply Forall_app. split; [eapply Forall_impl; [exact H1|]; intros; cbn; lra|].
        constructor; [exact Hlt|]. eapply Forall_impl; [exact H2|]. intros; cbn; lra.
      * constructor.
      * exists q1, wk, q2. split; [|split; [|split; assumption]].
        -- rewrite <- Heq, <- app_assoc. reflexivity.
        -- rewrite Hlen. f_equal. rewrite length_app. cbn [length]. lia.
    + destruct (IH p1 v (p2 ++ [w]) (S i)) as (q1 & wk & q2 & Heq & Hlen & Hq1 & Hq2).
      * rewrite length_app. cbn [length]. lia.
      * exact H1.
      * apply Forall_app. split; [exact H2|]. constructor; [lra|constructor].
      * exists q1, wk, q2. split; [|split; [|split; assumption]].
        -- rewrite <- Heq, <- app_assoc. reflexivity.
        -- exact Hlen.
Qed.

Lemma argmax_spec (w : list R) :
  w <> [] ->
  exists k wk,
    argmax w = Ok k /\ w !! k = Some wk
    /\ Forall (fun x => x <= wk) w /\ Forall (fun x => x < wk) (take k w).
Proof.
  intros Hne. destruct w as [|v l]; [congruence|].
  destruct (argmax_from_spec l [] v [] 1%nat eq_refl (List.Forall_nil _)
              (List.Forall_nil _)) as (q1 & wk & q2 & Heq & Hlen & Hq1 & Hq2).
  cbn [app length] in Heq, Hlen.
  exists (length q1), wk. split; [cbn [argmax]; rewrite Hlen; reflexivity|].
  rewrite Heq. split; [apply list_lookup_middle; reflexivity|]. split.
  - apply Forall_app. split; [eapply Forall_impl; [exact Hq1|]; intros; cbn; lra|].
    constructor; [lra|exact Hq2].
  - rewrite take_app_length. exact Hq1.
Qed.

Section Constructed.
Variable d : nat.
Variables sep sigma : R.
Variable w : list R.
Variable g : GaussianMix_obj.
Hypothesis Hinit : GaussianMix_init d sep w sigma = Ok g.

Lemma constructed_weights : gm_weights g = w.
Proof using Hinit. destruct (GaussianMix_init_Ok _ _ _ _ _ Hinit) as [_ ->]. reflexivity. Qed.

Lemma constructed_len : len_ok (length w).
Proof using Hinit. apply (GaussianMix_init_Ok _ _ _ _ _ Hinit). Qed.

Lemma constructed_sigmas : gm_sigmas g = replicate (length w) sigma.
Proof using Hinit. destruct (GaussianMix_init_Ok _ _ _ _ _ Hinit) as [_ ->]. reflexivity. Qed.

Lemma constructed_positions :
  length (gm_positions g) = length w
  /\ Forall (fun pos => exists p q, pos = [p; q]) (gm_positions g).
Proof using Hinit.
  destruct (GaussianMix_init_Ok _ _ _ _ _ Hinit) as [Hlen ->]. cbn [gm_positions].
  split.
  - rewrite length_take. cbn [length]. unfold len_ok in Hlen. lia.
  - apply Forall_take. repeat constructor; eauto.
Qed.

Lemma constructed_thetas (a b : R) (rest : list R) :
  exists thetas,
    comprehension (isub_slice2 [a; b]) (gm_positions g) = Ok thetas
    /\ comprehension (isub_slice2 (a :: b :: rest)) (gm_positions g)
       = Ok (map (fun th => th ++ rest) thetas)
    /\ length thetas = length w.
Proof using Hinit.
  destruct constructed_positions as [Hlen Hpos]. rewrite <- Hlen.
  apply isub_slice2_all. exact Hpos.
Qed.

Lemma constructed_logl (thetas : list (list R)) (i : nat) :
  length thetas = length w -> (i < length w)%nat ->
  exists th wi,
    thetas !! i = Some th /\ w !! i = Some wi
    /\ gm_logl g thetas i
       = (let* l := log_gaussian_pdf (ThetaArr th) sigma 0 None in Ok (l + ln wi)).
Proof using Hinit.
  intros Hlen Hi. unfold gm_logl. rewrite constructed_sigmas, constructed_weights.
  rewrite lookup_replicate_2 by exact Hi.
  destruct (lookup_lt_is_Some_2 thetas i ltac:(lia)) as [th Hth].
  destruct (lookup_lt_is_Some_2 w i Hi) as [wi Hwi].
  rewrite Hth, Hwi. eauto.
Qed.

Lemma constructed_logls_extra (thetas : list (list R)) (rest : list R) (c : R) :
  length thetas = length w ->
  log_gaussian_pdf (ThetaArr rest) sigma 0 None = Ok c ->
  comprehension (gm_logl g (map (fun th => th ++ rest) thetas)) (seq 0 (length w))
  = (let* ys := comprehension (gm_logl g thetas) (seq 0 (length w)) in
     Ok (map (fun y => y + c) ys)).
Proof using Hinit.
  intros Hlen Hc. apply comprehension_shift. intros i Hi.
  apply elem_of_seq in Hi as [_ Hi]. cbn in Hi.
  destruct (constructed_logl thetas i Hlen Hi) as (th & wi & Hth & Hwi & ->).
  unfold gm_logl. rewrite constructed_sigmas, constructed_weights.
  rewrite lookup_replicate_2 by exact Hi. rewrite Hwi.
  change (@map (list R) (list R)) with (@fmap list _ (list R) (list R)).
  rewrite list_lookup_fmap, Hth. cbn [fmap option_fmap option_map].
  rewrite log_gaussian_pdf_app, Hc.
  destruct (log_gaussian_pdf (ThetaArr th) sigma 0 None) as [l|e]; [|reflexivity].
  cbn [bind]. f_equal. ring.
Qed.

Lemma constructed_logls_Ok (thetas : list (list R)) :
  length thetas = length w ->
  exists ys, comprehension (gm_logl g thetas) (seq 0 (length w)) = Ok ys /\ ys <> [].
Proof using Hinit.
  intros Hlen.
  destruct (comprehension_all (gm_logl g thetas) (fun _ => True) (seq 0 (length w)))
    as (ys & Hys & _ & Hl).
  - apply Forall_forall. intros i Hi. apply elem_of_seq in Hi as [_ Hi]. cbn in Hi.
    destruct (constructed_logl thetas i Hlen Hi) as (th & wi & _ & _ & ->).
    unfold log_gaussian_pdf. cbn [bind]. eauto.
  - exists ys. split; [exact Hys|]. intros ->. cbn in Hl. rewrite length_seq in Hl.
    pose proof constructed_len as Hok. unfold len_ok in Hok. lia.
Qed.

Lemma constructed_call_extra (a b : R) (rest : list R) :
  exists v2 c,
    GaussianMix_call g [a; b] = Ok v2
    /\ log_gaussian_pdf (ThetaArr rest) sigma 0 None = Ok c
    /\ GaussianMix_call g (a :: b :: rest) = Ok (v2 + c).
Proof using Hinit.
  destruct (constructed_thetas a b rest) as (thetas & H1 & H2 & Hlen).
  destruct (constructed_logls_Ok thetas Hlen) as (ys & Hys & Hne).
  assert (Hc : exists c, log_gaussian_pdf (ThetaArr rest) sigma 0 None = Ok c)
    by (unfold log_gaussian_pdf; cbn [bind]; eauto).
  destruct Hc as [c Hc]. exists (logsumexp ys), c.
  unfold GaussianMix_call. rewrite H1, H2. cbn [bind].
  rewrite constructed_weights, (constructed_logls_extra thetas rest c Hlen Hc), Hys.
  cbn [bind]. rewrite logsumexp_shift by exact Hne. repeat split. exact Hc.
Qed.
Lemma constructed_max_loglike :
  exists k wk p q v,
    w !! k = Some wk
    /\ Forall (fun x => x <= wk) w /\ Forall (fun x => x < wk) (take k w)
    /\ gm_positions g !! k = Some [p; q]
    /\ GaussianMix_call g [p; q] = Ok v
    /\ GaussianMix_max_loglike g = Ok v.
Proof using Hinit.
  pose proof constructed_len as Hok.
  destruct (argmax_spec w) as (k & wk & Hk & Hwk & Hmax & Hfirst).
  { intros ->. unfold len_ok in Hok. cbn in Hok. lia. }
  destruct constructed_positions as [Hlen Hpos].
  assert (Hlt : (k < length (gm_positions g))%nat).
  { rewrite Hlen. apply lookup_lt_is_Some. eauto. }
  destruct (lookup_lt_is_Some_2 _ _ Hlt) as [pos Hp].
  rewrite Forall_lookup in Hpos. destruct (Hpos k pos Hp) as [p [q ->]].
  destruct (constructed_call_extra p q []) as (v & c & Hv & _ & _).
  exists k, wk, p, q, v. repeat split; try assumption.
  unfold GaussianMix_max_loglike. rewrite constructed_weights, Hk. cbn [bind].
  rewrite Hp. exact Hv.
Qed.
End Constructed.

Lemma constructed_call_short (d : nat) (sep sigma : R) (w : list R)
    (g : GaussianMix_obj) (theta : list R) :
  GaussianMix_init d sep w sigma = Ok g -> (length theta < 2)%nat ->
  GaussianMix_call g theta = Raise ValueError.
Proof.
  intros Hinit Hlen. unfold GaussianMix_call.
  destruct (constructed_positions d sep sigma w g Hinit) as [Hl Hpos].
  pose proof (constructed_len d sep sigma w g Hinit) as Hok.
  destruct (gm_positions g) as [|pos ps]; [cbn in Hl; unfold len_ok in Hok; lia|].
  apply Forall_cons in Hpos as [[p [q ->]] _]. cbn [comprehension].
  rewrite isub_slice2_short by (try reflexivity; exact Hlen). reflexivity.
Qed.

(** X16. A GaussianMix that [__init__] has built evaluates every
    [float64] vector of at least two coordinates, whatever [x_dim] is,
    and raises [ValueError] on a [float64] vector of fewer than two; it
    holds as many positions and sigmas as weights. *)
Theorem GaussianMix_constructed_call (d : nat) (sep sigma : R) (w : list R)
    (g : GaussianMix_obj) :
  GaussianMix_init d sep w sigma = Ok g ->
  (forall theta, (2 <= length theta)%nat -> exists v, call (GaussianMix g) theta = Ok v)
  /\ (forall theta, (length theta < 2)%nat ->
                    call (GaussianMix g) theta = Raise ValueError)
  /\ length (gm_positions g) = length w
  /\ gm_sigmas g = replicate (length w) sigma.
Proof.
  intros Hinit. split; [|split; [|split]].
  - intros [|a [|b rest]] Hlen; try (cbn in Hlen; lia).
    destruct (constructed_call_extra d sep sigma w g Hinit a b rest)
      as (v2 & c & _ & _ & H). eauto.
  - intros theta Hlen. exact (constructed_call_short d sep sigma w g theta Hinit Hlen).
  - apply (constructed_positions d sep sigma w g Hinit).
  - apply (constructed_sigmas d sep sigma w g Hinit).
Qed.

Lemma GaussianMix_constructed_call_witness :
  (forall theta, (2 <= length theta)%nat ->
                 exists v, call (GaussianMix two_equal_components) theta = Ok v)
  /\ (forall theta, (length theta < 2)%nat ->
                    call (GaussianMix two_equal_components) theta = Raise ValueError)
  /\ length (gm_positions two_equal_components) = length [1 / 2; 1 / 2]
  /\ gm_sigmas two_equal_components = replicate (length [1 / 2; 1 / 2]) 1.
Proof.
  apply (GaussianMix_constructed_call 2 (1 / 2) 1 [1 / 2; 1 / 2] two_equal_components).
  exact two_equal_components_init.
Defined.

(** X17. For a GaussianMix that [__init__] has built, the log-density
    of a vector of more than two coordinates is the mixture log-density
    of its first two coordinates plus the log-density that
    [log_gaussian_pdf] gives, with the mixture's [sigma] and mean 0, to
    the remaining coordinates. *)
Theorem GaussianMix_extra_coordinates (d : nat) (sep sigma : R) (w : list R)
    (g : GaussianMix_obj) (a b : R) (rest : list R) :
  GaussianMix_init d sep w sigma = Ok g ->
  exists v2 c,
    call (GaussianMix g) [a; b] = Ok v2
    /\ log_gaussian_pdf (ThetaArr rest) sigma 0 None = Ok c
    /\ call (GaussianMix g) (a :: b :: rest) = Ok (v2 + c).
Proof.
  intros Hinit. exact (constructed_call_extra d sep sigma w g Hinit a b rest).
Qed.

Lemma GaussianMix_extra_coordinates_witness :
  exists v2 c,
    call (GaussianMix two_equal_components) [0; 0] = Ok v2
    /\ log_gaussian_pdf (ThetaArr [3; 4]) 1 0 None = Ok c
    /\ call (GaussianMix two_equal_components) (0 :: 0 :: [3; 4]) = Ok (v2 + c).
Proof.
  apply (GaussianMix_extra_coordinates 2 (1 / 2) 1 [1 / 2; 1 / 2] two_equal_components).
  exact two_equal_components_init.
Defined.

(** X18. For a GaussianMix that [__init__] has built, [max_loglike]
    raises nothing: it is the log-density at the position of the first
    greatest weight. *)
Theorem GaussianMix_max_loglike_defined (d : nat) (sep sigma : R) (w : list R)
    (g : GaussianMix_obj) :
  GaussianMix_init d sep w sigma = Ok g ->
  exists k wk p q v,
    w !! k = Some wk
    /\ Forall (fun x => x <= wk) w /\ Forall (fun x => x < wk) (take k w)
    /\ gm_positions g !! k = Some [p; q]
    /\ call (GaussianMix g) [p; q] = Ok v
    /\ invoke (max_loglike (GaussianMix g)) = Ok v.
Proof.
  intros Hinit. exact (constructed_max_loglike d sep sigma w g Hinit).
Qed.

Lemma GaussianMix_max_loglike_defined_witness :
  exists k wk p q v,
    [1 / 2; 1 / 2] !! k = Some wk
    /\ Forall (fun x => x <= wk) [1 / 2; 1 / 2]
    /\ Forall (fun x => x < wk) (take k [1 / 2; 1 / 2])
    /\ gm_positions two_equal_components !! k = Some [p; q]
    /\ call (GaussianMix two_equal_components) [p; q] = Ok v
    /\ invoke (max_loglike (GaussianMix two_equal_components)) = Ok v.
Proof.
  apply (GaussianMix_max_loglike_defined 2 (1 / 2) 1 [1 / 2; 1 / 2]).
  exact two_equal_components_init.
Defined.




(** ** GaussianMix is a mixture of normal densities *)

Lemma mixture_term (sigma x y wi : R) :
  sigma <> 0 -> 0 < wi ->
  exp (- (sum [(x - 0) ^ 2; (y - 0) ^ 2] / (2 * sigma ^ 2))
       - ln (2 * PI * sigma ^ 2) * INR 2 / 2 + ln wi)
  = wi * normal_density2 sigma x y.
Proof.
  intros Hs Hw. unfold normal_density2.
  assert (Hpos : 0 < 2 * PI * sigma ^ 2).
  { pose proof PI_RGT_0. pose proof (pow2_ge_0 sigma).
    assert (sigma ^ 2 <> 0) by (apply pow_nonzero; exact Hs).
    apply Rmult_lt_0_compat; lra. }
  rewrite !sum_cons, sum_nil.
  replace (- (((x - 0) ^ 2 + ((y - 0) ^ 2 + 0)) / (2 * sigma ^ 2))
           - ln (2 * PI * sigma ^ 2) * INR 2 / 2 + ln wi)
    with (ln wi + (- ((x ^ 2 + y ^ 2) / (2 * sigma ^ 2)) + - ln (2 * PI * sigma ^ 2)))
    by (simpl; field; exact Hs).
  rewrite !exp_plus, (exp_Ropp (ln (2 * PI * sigma ^ 2))), !exp_ln by assumption.
  unfold Rdiv. ring.
Qed.

(** X20. For [sigma <> 0] and positive weights, a GaussianMix that
    [__init__] has built returns, on a vector of two coordinates, the
    logarithm of the weighted sum of the isotropic normal densities
    centred at (0, sep), (0, -sep), (sep, 0) and (-sep, 0), one per
    weight. *)
Theorem GaussianMix_is_mixture (d : nat) (sep sigma : R) (w : list R)
    (g : GaussianMix_obj) (a b : R) :
  GaussianMix_init d sep w sigma = Ok g ->
  sigma <> 0 -> Forall (fun wi => 0 < wi) w ->
  call (GaussianMix g) [a; b]
  = Ok (ln (sum (zip_with (fun wi c => wi * normal_density2 sigma (a - c.1) (b - c.2))
                   w [(0, sep); (0, - sep); (sep, 0); (- sep, 0)]))).
Proof.
  intros Hinit Hs Hw. destruct (GaussianMix_init_Ok _ _ _ _ _ Hinit) as [Hlen ->].
  unfold len_ok in Hlen.
  destruct w as [|w1 [|w2 [|w3 [|w4 [|w5 w]]]]]; cbn [length] in Hlen; try lia;
    repeat match goal with
           | H : Forall _ (_ :: _) |- _ => apply Forall_cons in H as [? H]
           end;
    cbn [call GaussianMix]; unfold GaussianMix_call;
    cbn [gm_positions gm_weights gm_sigmas length take comprehension isub_slice2
         Nat.eqb zip_with drop app bind seq gm_logl lookup list_lookup replicate];
    unfold log_gaussian_pdf; cbn [bind elements map length];
    unfold logsumexp; cbn [map fst snd];
    rewrite !mixture_term by assumption; reflexivity.
Qed.

Lemma GaussianMix_is_mixture_witness :
  call (GaussianMix two_equal_components) [0; 0]
  = Ok (ln (sum (zip_with (fun wi c => wi * normal_density2 1 (0 - c.1) (0 - c.2))
                   [1 / 2; 1 / 2]
                   [(0, 1 / 2); (0, - (1 / 2)); (1 / 2, 0); (- (1 / 2), 0)]))).
Proof.
  apply (GaussianMix_is_mixture 2 (1 / 2) 1 [1 / 2; 1 / 2] two_equal_components 0 0).
  - exact two_equal_components_init.
  - lra.
  - repeat constructor; lra.
Defined.

(** ** sample and the exceptions of evaluate *)

Lemma comprehension_all_Raise {A B : Type} (f : A -> res B) (xs : list A) (e : exn) :
  xs <> [] -> Forall (fun a => f a = Raise e) xs -> comprehension f xs = Raise e.
Proof.
  intros Hne H. destruct H as [|a xs Ha _]; [congruence|].
  cbn [comprehension]. rewrite Ha. reflexivity.
Qed.

(** X21. When [evaluate] raises [e] on every vector of [x_dim]
    coordinates (as GaussianMix does for [x_dim = 1]), [sample] with
    [num_samples >= 1] raises [e] in its first iteration, after it has
    drawn the candidates and before it draws the acceptance numbers. *)
Theorem sample_raises_what_evaluate_raises (L : Likelihood) (lo hi : list R)
    (n fuel : nat) (st : RandomState) (e : exn) :
  (exists a, read (max_loglike L) = Ok a) ->
  read (sample_range L) = Ok (Value (lo, hi)) ->
  length lo = x_dim L -> length hi = x_dim L ->
  (forall row, length row = x_dim L -> call L row = Raise e) ->
  sample (S fuel) L (S n) st = (Fail e, advance (1000 * x_dim L) st).
Proof.
  intros [a Ha] Hrange Hlo Hhi Hcall. unfold sample. rewrite Ha, Hrange.
  cbn [sample_loop]. change (length (@nil (list R)) <? S n)%nat with true. cbv iota.
  unfold uniform_matrix.
  rewrite (broadcast_to_same _ lo Hlo), (broadcast_to_same _ hi Hhi).
  rewrite uniform_rows_formula by congruence.
  unfold loglike. cbn [to_array bind].
  rewrite (comprehension_all_Raise (call L) (candidates_n batch lo hi st) e).
  - cbn [bind]. rewrite Hlo. reflexivity.
  - intros H. apply (f_equal length) in H. rewrite length_candidates_n in H.
    unfold batch in H. discriminate H.
  - eapply Forall_impl; [apply (candidates_n_length_rows L lo hi Hlo Hhi)|].
    exact Hcall.
Qed.

Lemma one_dimensional_mixture_init :
  GaussianMix_init 1 (1 / 2) [1 / 2; 1 / 2] 1 = Ok one_dimensional_mixture.
Proof.
  unfold GaussianMix_init.
  assert (Hlen : bool_decide (length [1 / 2; 1 / 2] ∈ [2; 3; 4]%nat) = true)
    by (apply len_ok_decide; unfold len_ok; simpl; lia).
  assert (Hsum : isclose (sum [1 / 2; 1 / 2]) 1 = true).
  { apply isclose_1_spec. rewrite !sum_cons, sum_nil.
    replace (1 / 2 + (1 / 2 + 0) - 1) with 0 by lra. rewrite Rabs_R0. lra. }
  rewrite Hlen, Hsum. reflexivity.
Qed.

Lemma one_dimensional_mixture_max_loglike :
  exists a, read (max_loglike (GaussianMix one_dimensional_mixture)) = Ok a.
Proof.
  destruct (constructed_max_loglike _ _ _ _ _ one_dimensional_mixture_init)
    as (k & wk & p & q & v & _ & _ & _ & _ & _ & Hmax).
  exists (Value v). cbn [read max_loglike GaussianMix]. rewrite Hmax. reflexivity.
Qed.

Lemma sample_raises_what_evaluate_raises_witness :
  sample 1 (GaussianMix one_dimensional_mixture) 1 zero_state
  = (Fail ValueError, advance (1000 * x_dim (GaussianMix one_dimensional_mixture)) zero_state).
Proof.
  apply (sample_raises_what_evaluate_raises (GaussianMix one_dimensional_mixture)
           (replicate 1 (- (1 / 2) - 5 * 1)) (replicate 1 (1 / 2 + 5 * 1)) 0 0
           zero_state ValueError).
  - exact one_dimensional_mixture_max_loglike.
  - reflexivity.
  - reflexivity.
  - reflexivity.
  - intros row Hrow.
    apply (constructed_call_short 1 (1 / 2) 1 [1 / 2; 1 / 2] one_dimensional_mixture row
             one_dimensional_mixture_init).
    rewrite Hrow. cbn. lia.
Defined.

(** ** What sample returns *)







Section Returned.
Variable L : Likelihood.
Variables lo hi : list R.
Variable n : nat.
Hypothesis Hlo : length lo = x_dim L.
Hypothesis Hhi : length hi = x_dim L.


End Returned.




